(** * The account store of [user-manager.js]

    A shallow embedding of the [UserManager] class: the record collection
    kept under the [users] key of [localStorage], the operations that read
    and rewrite it, and the form validator.

    Modelling conventions.
    - A JavaScript string is a [string]: a sequence of code units below 256
      (the Latin-1 part of UTF-16), on which [toLowerCase], [trim] and the
      character classes of the regular expressions are written out exactly.
    - A Number that holds an identifier or a length is a [Z].  Sums of
      such Numbers are rounded as double-precision sums are ([to_double]),
      and [parseInt] gives an identifier back only while the Number prints
      without an exponent, that is below 1e21 in magnitude; what it reads
      off the exponent form is a parameter of the model ([Builtins]).
    - [new Date().toISOString()] reads the clock; the reading is an argument
      [now] of the operation, a [timestamp] in milliseconds.
    - A record object is a [user]; [null] in [lastLogin] is [None].
    - [localStorage] holds JSON texts.  A text is modelled by the value it
      denotes: [JSON.parse (JSON.stringify v)] is [v], and writing to
      [localStorage] does not fail.
    - A method is a computation in the monad [M]: it reads and writes the
      storage and either returns normally or throws an [Error]. *)

From Stdlib Require Import ZArith NArith Ascii String List Bool Lia.
From stdpp Require Import base decidable option list strings.

Open Scope Z_scope.
Open Scope string_scope.
Open Scope list_scope.

(** ** Strings *)

Definition code (c : ascii) : N := N_of_ascii c.

Definition in_range (lo hi : N) (c : ascii) : bool :=
  ((lo <=? code c) && (code c <=? hi))%N.

(** The upper-case letters below U+0100: A-Z, and U+00C0-U+00DE without the
    multiplication sign U+00D7.  Each lower-case form lies 32 above. *)
Definition is_upper (c : ascii) : bool :=
  in_range 65 90 c || (in_range 192 222 c && negb (code c =? 215)%N).

Definition toLowerCase_char (c : ascii) : ascii :=
  if is_upper c then ascii_of_N (code c + 32) else c.

Fixpoint toLowerCase (s : string) : string :=
  match s with
  | EmptyString => EmptyString
  | String c s' => String (toLowerCase_char c) (toLowerCase s')
  end.

(** White space and line terminators below U+0100: TAB, LF, VT, FF, CR,
    SPACE and NO-BREAK SPACE.  This is the class [\s] and what [trim] cuts. *)
Definition is_space (c : ascii) : bool :=
  in_range 9 13 c || (code c =? 32)%N || (code c =? 160)%N.

Definition is_digit (c : ascii) : bool := in_range 48 57 c.

Fixpoint trimStart (s : list ascii) : list ascii :=
  match s with
  | c :: s' => if is_space c then trimStart s' else s
  | [] => []
  end.

Definition trimEnd (s : list ascii) : list ascii := rev (trimStart (rev s)).

Definition trim (s : string) : string :=
  string_of_list_ascii (trimEnd (trimStart (list_ascii_of_string s))).

(** ** Records *)

Definition timestamp := Z.

Record user := {
  id : Z;
  firstName : string;
  lastName : string;
  email : string;
  phone : string;
  password : string;
  createdAt : timestamp;
  lastLogin : option timestamp;
  isActive : bool
}.

Global Instance user_eq_dec : EqDecision user.
Proof. solve_decision. Defined.

(** The argument of [addUser]: the five fields the form supplies. *)
Module UserData.
Record t := {
  firstName : string;
  lastName : string;
  email : string;
  phone : string;
  password : string
}.
End UserData.

(** The second argument of [updateUser]: an object holding some of the
    fields of a record.  [None] is a property that is not there. *)
Module Update.
Record t := {
  id : option Z;
  firstName : option string;
  lastName : option string;
  email : option string;
  phone : option string;
  password : option string;
  createdAt : option timestamp;
  lastLogin : option (option timestamp);
  isActive : option bool
}.

End Update.

(** [{ ...u, ...updateData }]: a property of [updateData] wins over the one
    of [u]. *)
Definition spread (u : user) (updateData : Update.t) : user :=
  {| id := default (id u) (Update.id updateData);
     firstName := default (firstName u) (Update.firstName updateData);
     lastName := default (lastName u) (Update.lastName updateData);
     email := default (email u) (Update.email updateData);
     phone := default (phone u) (Update.phone updateData);
     password := default (password u) (Update.password updateData);
     createdAt := default (createdAt u) (Update.createdAt updateData);
     lastLogin := default (lastLogin u) (Update.lastLogin updateData);
     isActive := default (isActive u) (Update.isActive updateData) |}.

(** [{ ...importedUser, id: newId }] *)
Definition with_id (importedUser : user) (newId : Z) : user :=
  {| id := newId;
     firstName := firstName importedUser;
     lastName := lastName importedUser;
     email := email importedUser;
     phone := phone importedUser;
     password := password importedUser;
     createdAt := createdAt importedUser;
     lastLogin := lastLogin importedUser;
     isActive := isActive importedUser |}.

(** ** Errors, storage and the monad of methods *)

Inductive exn := Error (message : string).

Definition message (e : exn) : string := let 'Error m := e in m.

Global Instance exn_eq_dec : EqDecision exn.
Proof. solve_decision. Defined.

Definition DuplicateEmail : exn := Error "User with this email already exists".
Definition NotFound : exn := Error "User not found".
Definition AccountDisabled : exn := Error "User account is disabled".
Definition InvalidCredentials : exn := Error "Invalid password".
Definition InvalidFormat : exn := Error "Invalid data format".

(** The two items of [localStorage] the class uses.  [None]: no item. *)
Record localStorage := {
  item_users : option (list user);
  item_currentUser : option user
}.

Inductive completion (A : Type) :=
| Normal (a : A)
| Throw (e : exn).
Arguments Normal {A} a.
Arguments Throw {A} e.

Definition M (A : Type) : Type := localStorage -> completion A * localStorage.

Definition ret {A} (a : A) : M A := fun ls => (Normal a, ls).

Definition throw {A} (e : exn) : M A := fun ls => (Throw e, ls).

Definition bind {A B} (m : M A) (k : A -> M B) : M B :=
  fun ls =>
    match m ls with
    | (Normal a, ls') => k a ls'
    | (Throw e, ls') => (Throw e, ls')
    end.

(** [try { m } catch (error) { h error }] *)
Definition try_catch {A} (m : M A) (h : exn -> M A) : M A :=
  fun ls =>
    match m ls with
    | (Normal a, ls') => (Normal a, ls')
    | (Throw e, ls') => h e ls'
    end.

Declare Scope js_scope.
Delimit Scope js_scope with js.
Notation "'let*' x ':=' m 'in' k" := (bind m (fun x => k))
  (at level 10, x name, m at level 100, k at level 200) : js_scope.
Notation "m ';;' k" := (bind m (fun _ => k))
  (at level 100, k at level 200, right associativity) : js_scope.
Open Scope js_scope.

(** The collection a storage holds, as [getUsers] reads it. *)
Definition collection (ls : localStorage) : list user :=
  default [] (item_users ls).

(** ** Numbers *)

(** The double nearest to an integer, ties going to the even significand.
    Integers up to 2^53 in magnitude are doubles; above, doubles are the
    multiples of [ulp], a power of two.  (No sum formed below reaches the
    overflow threshold of doubles.) *)
Definition to_double (x : Z) : Z :=
  let a := Z.abs x in
  if (a <=? 2 ^ 53)%Z then x
  else
    let ulp := 2 ^ (Z.log2 a - 52) in
    let q := a / ulp in
    let r := a mod ulp in
    let q' :=
      if (2 * r <? ulp)%Z then q
      else if (ulp <? 2 * r)%Z then q + 1
      else if Z.even q then q else q + 1 in
    Z.sgn x * (q' * ulp).

(** [a + b] on Numbers that hold integers: the exact sum, rounded. *)
Definition Number_add (a b : Z) : Z := to_double (a + b).

(** What the embedding leaves open in the built-in functions.
    [parseInt(n)] prints the Number [n] and reads the leading integer of
    the text.  A Number of magnitude 1e21 or more prints in exponent form,
    as in 1e+21 or -2.5e+22, and [parseInt] reads the digit before the
    point, with the sign.  Which digit the shortest round-trip form starts
    with is not worked out here: [parseInt_exponent_form n] stands for the
    result. *)
Class Builtins := {
  parseInt_exponent_form : Z -> Z
}.

(** ** The methods *)

Definition getUsers : M (list user) :=
  fun ls => (Normal (collection ls), ls).

Definition saveUsers (users : list user) : M bool :=
  fun ls =>
    (Normal true,
     {| item_users := Some users; item_currentUser := item_currentUser ls |}).

(** [user.email.toLowerCase() === email.toLowerCase()] *)
Definition same_email (addr : string) (u : user) : Prop :=
  toLowerCase (email u) = toLowerCase addr.

Global Instance same_email_dec addr u : Decision (same_email addr u).
Proof. unfold same_email. apply _. Defined.

(** [parseInt] of a Number that holds an integer: the number itself while
    it prints as plain digits, below 1e21 in magnitude. *)
Definition parseInt `{!Builtins} (n : Z) : Z :=
  if (Z.abs n <? 10 ^ 21)%Z then n else parseInt_exponent_form n.

(** [user.id === parseInt(userId)] *)
Definition has_id `{!Builtins} (userId : Z) (u : user) : Prop :=
  id u = parseInt userId.

Global Instance has_id_dec `{!Builtins} userId u : Decision (has_id userId u).
Proof. unfold has_id. apply _. Defined.

(** [Array.prototype.find]: the first element that passes, or [undefined]. *)
Definition find {A} (P : A -> Prop) `{!forall x, Decision (P x)}
    (l : list A) : option A :=
  snd <$> list_find P l.

Definition getUserByEmail (addr : string) : M (option user) :=
  let* users := getUsers in
  ret (find (same_email addr) users).

Definition getUserById `{!Builtins} (userId : Z) : M (option user) :=
  let* users := getUsers in
  ret (find (has_id userId) users).

(** [Math.max(...xs)] of a list that is not empty. *)
Definition Math_max (x : Z) (xs : list Z) : Z := fold_left Z.max xs x.

Definition generateUserId : M Z :=
  let* users := getUsers in
  ret (match map id users with
       | x :: xs => Number_add (Math_max x xs) 1
       | [] => 1
       end).

Definition addUser (userData : UserData.t) (now : timestamp) : M user :=
  let* users := getUsers in
  let* existing := getUserByEmail (UserData.email userData) in
  match existing with
  | Some _ => throw DuplicateEmail
  | None =>
      let* newId := generateUserId in
      let newUser :=
        {| id := newId;
           firstName := UserData.firstName userData;
           lastName := UserData.lastName userData;
           email := toLowerCase (UserData.email userData);
           phone := UserData.phone userData;
           password := UserData.password userData;
           createdAt := now;
           lastLogin := None;
           isActive := true |} in
      saveUsers (users ++ [newUser]);;
      ret newUser
  end.

(** [findIndex] gives the first position that passes, -1 ([None]) if there
    is none; [users[userIndex]] is the element [list_find] returns with it. *)
Definition updateUser `{!Builtins} (userId : Z) (updateData : Update.t)
    : M user :=
  let* users := getUsers in
  match list_find (has_id userId) users with
  | None => throw NotFound
  | Some (userIndex, u) =>
      let updated := spread u updateData in
      saveUsers (<[userIndex := updated]> users);;
      ret updated
  end.

Definition deleteUser `{!Builtins} (userId : Z) : M bool :=
  let* users := getUsers in
  let updatedUsers := filter (fun u => ~ has_id userId u) users in
  if (length users =? length updatedUsers)%nat
  then throw NotFound
  else (saveUsers updatedUsers;; ret true).

(** [{ lastLogin: now }] *)
Definition lastLogin_update (now : timestamp) : Update.t :=
  {| Update.id := None; Update.firstName := None;
     Update.lastName := None; Update.email := None;
     Update.phone := None; Update.password := None;
     Update.createdAt := None; Update.lastLogin := Some (Some now);
     Update.isActive := None |}.

Definition authenticateUser `{!Builtins} (addr pwd : string) (now : timestamp)
    : M user :=
  let* found := getUserByEmail addr in
  match found with
  | None => throw NotFound
  | Some u =>
      if negb (isActive u) then throw AccountDisabled
      else if negb (bool_decide (password u = pwd)) then throw InvalidCredentials
      else (updateUser (id u) (lastLogin_update now);; ret u)
  end.

(** The session item: [setCurrentUser], [getCurrentUser] and [logout]. *)
Definition setCurrentUser (u : user) : M bool :=
  fun ls =>
    (Normal true, {| item_users := item_users ls; item_currentUser := Some u |}).

Definition getCurrentUser : M (option user) :=
  fun ls => (Normal (item_currentUser ls), ls).

Definition logout : M bool :=
  fun ls =>
    (Normal true, {| item_users := item_users ls; item_currentUser := None |}).

(** [initializeStorage], which the constructor runs: two seed records when
    there is no [users] item.  The clock is read once for each record. *)
Definition defaultUsers (now1 now2 : timestamp) : list user :=
  [ {| id := 1; firstName := "John"; lastName := "Doe";
       email := "john@example.com"; phone := "+1234567890";
       password := "Password123!"; createdAt := now1;
       lastLogin := None; isActive := true |};
    {| id := 2; firstName := "Jane"; lastName := "Smith";
       email := "jane@example.com"; phone := "+0987654321";
       password := "SecurePass456@"; createdAt := now2;
       lastLogin := None; isActive := true |} ].

Definition initializeStorage (now1 now2 : timestamp) : M unit :=
  fun ls =>
    match item_users ls with
    | Some _ => (Normal tt, ls)
    | None => (saveUsers (defaultUsers now1 now2);; ret tt) ls
    end.

(** ** JSON texts: export and import *)

Record metadata := {
  exportDate : timestamp;
  totalUsers : Z;
  version : string
}.

(** The values a text given to [importUsers] can denote, as far as the
    method looks into them: an array of records, an object with its
    [users] and [metadata] properties, [null], or another scalar, of which
    only the truth value matters. *)
#[local] Set Warnings "-register-all".
Inductive json :=
| JNull
| JScalar (truthy : bool)
| JArray (elements : list user)
| JObject (users_prop : option json) (metadata_prop : option metadata).
#[local] Set Warnings "register-all".

(** A text that [JSON.parse] rejects, with the message of its SyntaxError,
    or a text with the value it denotes. *)
Inductive text :=
| Malformed (syntax_error : string)
| Text (value : json).

Definition JSON_stringify (value : json) : text := Text value.

Definition JSON_parse (t : text) : M json :=
  match t with
  | Malformed msg => throw (Error msg)
  | Text value => ret value
  end.

Definition is_truthy (v : json) : bool :=
  match v with
  | JNull => false
  | JScalar b => b
  | JArray _ | JObject _ _ => true
  end.

(** [data.users || data].  Reading a property of [null] throws a
    TypeError; on a scalar or an array the property is [undefined]. *)
Definition users_or_self (data : json) : M json :=
  match data with
  | JNull => throw (Error "Cannot read properties of null (reading 'users')")
  | JObject (Some v) _ => ret (if is_truthy v then v else data)
  | _ => ret data
  end.

Definition exportUsers (now : timestamp) : M text :=
  let* users := getUsers in
  let exportData :=
    JObject (Some (JArray users))
            (Some {| exportDate := now;
                     totalUsers := Z.of_nat (length users);
                     version := "1.0" |}) in
  ret (JSON_stringify exportData).

(** The body of the [forEach] of the merge branch: [mergedUsers] is the
    array being filled, while [getUserByEmail] and [generateUserId] read
    the storage. *)
Definition merge_one (mergedUsers : list user) (importedUser : user)
    : M (list user) :=
  let* existing := getUserByEmail (email importedUser) in
  match existing with
  | Some _ => ret mergedUsers
  | None =>
      let* newId := generateUserId in
      ret (mergedUsers ++ [with_id importedUser newId])
  end.

Fixpoint forEach_merge (importedUsers : list user) (mergedUsers : list user)
    : M (list user) :=
  match importedUsers with
  | [] => ret mergedUsers
  | importedUser :: rest =>
      let* mergedUsers' := merge_one mergedUsers importedUser in
      forEach_merge rest mergedUsers'
  end.

Definition importUsers (jsonData : text) (mergeMode : bool) : M Z :=
  try_catch
    (let* data := JSON_parse jsonData in
     let* imported := users_or_self data in
     match imported with
     | JArray importedUsers =>
         if mergeMode then
           let* existingUsers := getUsers in
           let* mergedUsers := forEach_merge importedUsers existingUsers in
           saveUsers mergedUsers;;
           ret (Z.of_nat (length mergedUsers) - Z.of_nat (length existingUsers))
         else
           (saveUsers importedUsers;;
            ret (Z.of_nat (length importedUsers)))
     | _ => throw InvalidFormat
     end)
    (fun error => throw (Error ("Failed to import users: " ++ message error))).

(** ** Regular expressions

    Both patterns of [validateUserData] are anchored at [^] and [$] and
    have no flags, so [test] asks whether the whole string is in the
    language of the pattern.  [matches] decides that with derivatives. *)

Inductive regex :=
| Void
| Eps
| Class (p : ascii -> bool)
| Cat (r1 r2 : regex)
| Alt (r1 r2 : regex)
| Star (r : regex).

(** [r+], [r?] and [r{0,n}] *)
Definition Plus (r : regex) : regex := Cat r (Star r).
Definition Opt (r : regex) : regex := Alt r Eps.
Fixpoint UpTo (n : nat) (r : regex) : regex :=
  match n with
  | O => Eps
  | S n' => Opt (Cat r (UpTo n' r))
  end.

Fixpoint nullable (r : regex) : bool :=
  match r with
  | Void => false
  | Eps => true
  | Class _ => false
  | Cat r1 r2 => nullable r1 && nullable r2
  | Alt r1 r2 => nullable r1 || nullable r2
  | Star _ => true
  end.

Fixpoint deriv (c : ascii) (r : regex) : regex :=
  match r with
  | Void => Void
  | Eps => Void
  | Class p => if p c then Eps else Void
  | Cat r1 r2 =>
      if nullable r1 then Alt (Cat (deriv c r1) r2) (deriv c r2)
      else Cat (deriv c r1) r2
  | Alt r1 r2 => Alt (deriv c r1) (deriv c r2)
  | Star r1 => Cat (deriv c r1) (Star r1)
  end.

Fixpoint matches (r : regex) (s : list ascii) : bool :=
  match s with
  | [] => nullable r
  | c :: s' => matches (deriv c r) s'
  end.

Definition test (r : regex) (s : string) : bool :=
  matches r (list_ascii_of_string s).

Definition chr (c : ascii) : regex := Class (Ascii.eqb c).

(** [[^\s@]] *)
Definition not_space_at (c : ascii) : bool :=
  negb (is_space c || Ascii.eqb c "@").

(** [/^[^\s@]+@[^\s@]+\.[^\s@]+$/] *)
Definition emailRegex : regex :=
  Cat (Plus (Class not_space_at))
      (Cat (chr "@")
           (Cat (Plus (Class not_space_at))
                (Cat (chr ".") (Plus (Class not_space_at))))).

(** [/^[\+]?[1-9][\d]{0,15}$/] *)
Definition phoneRegex : regex :=
  Cat (Opt (chr "+"))
      (Cat (Class (in_range 49 57)) (UpTo 15 (Class is_digit))).

(** [[\s\-\(\)]], the characters [replace] deletes from the phone. *)
Definition phone_separator (c : ascii) : bool :=
  is_space c || Ascii.eqb c "-" || Ascii.eqb c "(" || Ascii.eqb c ")".

(** [s.replace(/[...]/g, '')] for a class of single characters *)
Definition replace_all (p : ascii -> bool) (s : string) : string :=
  string_of_list_ascii
    (List.filter (fun c => negb (p c)) (list_ascii_of_string s)).

(** ** validateUserData *)

(** The argument of [validateUserData]: a form object, of which any
    property may be missing ([None]). *)
Module FormData.
Record t := {
  firstName : option string;
  lastName : option string;
  email : option string;
  phone : option string;
  password : option string
}.

Definition of_userData (d : UserData.t) : t :=
  {| firstName := Some (UserData.firstName d);
     lastName := Some (UserData.lastName d);
     email := Some (UserData.email d);
     phone := Some (UserData.phone d);
     password := Some (UserData.password d) |}.
End FormData.

(** [!x || bad x]: a missing property and the empty string are falsy. *)
Definition falsy_or (bad : string -> bool) (x : option string) : bool :=
  match x with
  | None => true
  | Some s => (String.length s =? 0)%nat || bad s
  end.

Record validation := {
  isValid : bool;
  errors : list string
}.

Definition push_if (b : bool) (msg : string) (errs : list string)
    : list string :=
  if b then errs ++ [msg] else errs.

Definition firstName_msg := "First name must be at least 2 characters long".
Definition lastName_msg := "Last name must be at least 2 characters long".
Definition email_msg := "Please provide a valid email address".
Definition phone_msg := "Please provide a valid phone number".
Definition password_msg := "Password must be at least 8 characters long".

Definition short_name (s : string) : bool :=
  (String.length (trim s) <? 2)%nat.
Definition bad_email (s : string) : bool := negb (test emailRegex s).
Definition bad_phone (s : string) : bool :=
  negb (test phoneRegex (replace_all phone_separator s)).
Definition short_password (s : string) : bool := (String.length s <? 8)%nat.

Definition validateUserData (userData : FormData.t) : validation :=
  let errs := [] in
  let errs :=
    push_if (falsy_or short_name (FormData.firstName userData))
            firstName_msg errs in
  let errs :=
    push_if (falsy_or short_name (FormData.lastName userData))
            lastName_msg errs in
  let errs :=
    push_if (falsy_or bad_email (FormData.email userData)) email_msg errs in
  let errs :=
    push_if (falsy_or bad_phone (FormData.phone userData)) phone_msg errs in
  let errs :=
    push_if (falsy_or short_password (FormData.password userData))
            password_msg errs in
  {| isValid := (length errs =? 0)%nat; errors := errs |}.

(** ** Searching and counting *)

(** [t] is a prefix of [s]. *)
Fixpoint starts_with (t s : string) : bool :=
  match t, s with
  | EmptyString, _ => true
  | String a t', String b s' => Ascii.eqb a b && starts_with t' s'
  | String _ _, EmptyString => false
  end.

(** [s.includes(t)]: [t] occurs in [s], at the start or further on. *)
Fixpoint includes (s t : string) : bool :=
  starts_with t s ||
  match s with
  | EmptyString => false
  | String _ s' => includes s' t
  end.

(** The callback of the filter of [searchUsers]. *)
Definition matches_query (searchTerm : string) (u : user) : bool :=
  includes (toLowerCase (firstName u)) searchTerm ||
  includes (toLowerCase (lastName u)) searchTerm ||
  includes (toLowerCase (email u)) searchTerm.

Definition searchUsers (query : string) : M (list user) :=
  let* users := getUsers in
  let searchTerm := toLowerCase query in
  ret (List.filter (matches_query searchTerm) users).

Module Stats.
Record t := {
  totalUsers : Z;
  activeUsers : Z;
  usersWithLogin : Z;
  inactiveUsers : Z;
  recentRegistrations : Z
}.
End Stats.

(** [7 * 24 * 60 * 60 * 1000] milliseconds *)
Definition one_week : Z := 7 * 24 * 60 * 60 * 1000.

(** A last login is truthy when it is not [null]: a timestamp is never the
    empty string. *)
Definition has_login (u : user) : bool :=
  match lastLogin u with
  | Some _ => true
  | None => false
  end.

(** The last filter of [getUserStats].  Its callback calls [Date.now()]
    itself: [clock i] is the reading for the record at position [i].  The
    record passes when [createdDate > oneWeekAgo]. *)
Fixpoint recent_from (clock : nat -> timestamp) (i : nat) (users : list user)
    : list user :=
  match users with
  | [] => []
  | u :: rest =>
      if (clock i - one_week <? createdAt u)%Z
      then u :: recent_from clock (S i) rest
      else recent_from clock (S i) rest
  end.

Definition getUserStats (clock : nat -> timestamp) : M Stats.t :=
  let* users := getUsers in
  let activeUsers := List.filter isActive users in
  let usersWithLogin := List.filter has_login users in
  ret {| Stats.totalUsers := Z.of_nat (length users);
         Stats.activeUsers := Z.of_nat (length activeUsers);
         Stats.usersWithLogin := Z.of_nat (length usersWithLogin);
         Stats.inactiveUsers :=
           Z.of_nat (length users) - Z.of_nat (length activeUsers);
         Stats.recentRegistrations :=
           Z.of_nat (length (recent_from clock 0 users)) |}.

(** * Vocabulary of the properties *)

(** ** Collections *)

(** [first_at P l i x]: [x] is the element of [l] at position [i], it
    passes [P], and no element before it does.  This is what [find] and
    [findIndex] return. *)
Definition first_at {A} (P : A -> Prop) (l : list A) (i : nat) (x : A) : Prop :=
  l !! i = Some x /\ P x /\ forall j y, l !! j = Some y -> (j < i)%nat -> ~ P y.

(** [m] is the greatest element of [l]. *)
Definition is_max (m : Z) (l : list Z) : Prop :=
  m ∈ l /\ forall x, x ∈ l -> x <= m.

(** The identifier [generateUserId] returns for a collection. *)
Definition fresh_id (users : list user) : Z :=
  match map id users with
  | x :: xs => Number_add (Math_max x xs) 1
  | [] => 1
  end.

(** A safe integer, as [Number.isSafeInteger] has it: below 2^53 in
    magnitude. *)
Definition safe (n : Z) : Prop := Z.abs n < 2 ^ 53.

(** Every identifier of the collection is a safe integer. *)
Definition safe_ids (users : list user) : Prop :=
  forall u, u ∈ users -> safe (id u).

(** A Number that prints as plain digits: below 1e21 in magnitude. *)
Definition plain (n : Z) : Prop := Z.abs n < 10 ^ 21.

(** The record carries the identifier [n]. *)
Definition carries (n : Z) (u : user) : Prop := id u = n.

Global Instance carries_dec n u : Decision (carries n u).
Proof. unfold carries. apply _. Defined.

(** The record [addUser] builds. *)
Definition new_record (users : list user) (d : UserData.t) (now : timestamp)
    : user :=
  {| id := fresh_id users;
     firstName := UserData.firstName d;
     lastName := UserData.lastName d;
     email := toLowerCase (UserData.email d);
     phone := UserData.phone d;
     password := UserData.password d;
     createdAt := now;
     lastLogin := None;
     isActive := true |}.

(** The storage after [saveUsers users]. *)
Definition save (users : list user) (ls : localStorage) : localStorage :=
  {| item_users := Some users; item_currentUser := item_currentUser ls |}.

(** A field after an update: the supplied value, or the old one. *)
Definition overwritten {A} (old : A) (supplied : option A) (new : A) : Prop :=
  match supplied with
  | Some x => new = x
  | None => new = old
  end.

(** The record a login writes back. *)
Definition logged_in (u : user) (now : timestamp) : user :=
  spread u (lastLogin_update now).

(** ** Snapshots *)

(** The user list of a snapshot, when the text parses and the list is an
    array: the [users] property of an object, or a bare array. *)
Definition user_list (jsonData : text) : option (list user) :=
  match jsonData with
  | Text (JArray l) => Some l
  | Text (JObject (Some (JArray l)) _) => Some l
  | _ => None
  end.

(** No record of [users] has the email of [r], whatever the letter case. *)
Definition unknown_email (users : list user) (r : user) : Prop :=
  Forall (fun v => toLowerCase (email v) <> toLowerCase (email r)) users.

Global Instance unknown_email_dec users r : Decision (unknown_email users r).
Proof. unfold unknown_email. apply _. Defined.

(** What the merge branch appends: the snapshot records with an email the
    stored collection does not have, each with the identifier that
    [generateUserId] computes from the stored collection. *)
Definition appended (stored importedUsers : list user) : list user :=
  map (fun r => with_id r (fresh_id stored))
      (filter (unknown_email stored) importedUsers).

(** ** Patterns and forms *)

(** The language of a pattern. *)
Inductive Matches : regex -> list ascii -> Prop :=
| MEps : Matches Eps []
| MClass p c : p c = true -> Matches (Class p) [c]
| MCat r1 r2 s1 s2 :
    Matches r1 s1 -> Matches r2 s2 -> Matches (Cat r1 r2) (s1 ++ s2)
| MAltL r1 r2 s : Matches r1 s -> Matches (Alt r1 r2) s
| MAltR r1 r2 s : Matches r2 s -> Matches (Alt r1 r2) s
| MStarNil r : Matches (Star r) []
| MStarApp r s1 s2 :
    Matches r s1 -> Matches (Star r) s2 -> Matches (Star r) (s1 ++ s2).

Create HintDb regex.
#[local] Hint Constructors Matches : regex.

(** Every character of [s] is in the class [p]. *)
Definition all (p : ascii -> bool) (s : list ascii) : Prop :=
  forall c, c ∈ s -> p c = true.

(** [local@domain.tld]: three parts that are not empty and have neither
    white space nor an at sign, with an at sign after the first and a dot
    before the last. *)
Definition address_shaped (s : list ascii) : Prop :=
  exists a b c : list ascii,
    s = a ++ "@"%char :: b ++ "."%char :: c /\
    a <> [] /\ b <> [] /\ c <> [] /\
    all not_space_at a /\ all not_space_at b /\ all not_space_at c.

(** An optional plus sign, a digit from 1 to 9, and at most 15 more
    digits. *)
Definition phone_shaped (s : list ascii) : Prop :=
  exists (d : ascii) (ds : list ascii),
    (s = d :: ds \/ s = "+"%char :: d :: ds) /\
    in_range 49 57 d = true /\
    all is_digit ds /\ (length ds <= 15)%nat.

(** The phone rule in the words of the specification: digits, with an
    optional plus sign in front. *)
Definition digits_with_optional_plus (s : list ascii) : Prop :=
  exists ds : list ascii,
    (s = ds \/ s = "+"%char :: ds) /\ ds <> [] /\ all is_digit ds.

(** A phone once white space, dashes and parentheses are deleted. *)
Definition strip_phone (s : string) : list ascii :=
  List.filter (fun c => negb (phone_separator c)) (list_ascii_of_string s).

(** The property is missing, or its value is [bad]. *)
Definition missing_or (bad : string -> Prop) (x : option string) : Prop :=
  match x with
  | None => True
  | Some s => bad s
  end.

(** The five messages, in the order of the rules. *)
Definition all_messages : list string :=
  [firstName_msg; lastName_msg; email_msg; phone_msg; password_msg].

(** ** Vocabulary of the further properties *)

(** A record without its last login. *)
Definition forget_login (u : user) : user :=
  {| id := id u; firstName := firstName u; lastName := lastName u;
     email := email u; phone := phone u; password := password u;
     createdAt := createdAt u; lastLogin := None; isActive := isActive u |}.

(** [t] occurs in [s]: [s] is [t] with something before and after. *)
Definition occurs_in (t s : string) : Prop :=
  exists pre post : string, s = (pre ++ t ++ post)%string.

(** The lower-cased emails of a collection. *)
Definition lower_emails (users : list user) : list string :=
  map (fun u => toLowerCase (email u)) users.

(** The storage with no item at all. *)
Definition empty_storage : localStorage :=
  {| item_users := None; item_currentUser := None |}.

(** A form with another phone. *)
Definition with_phone (d : FormData.t) (p : string) : FormData.t :=
  {| FormData.firstName := FormData.firstName d;
     FormData.lastName := FormData.lastName d;
     FormData.email := FormData.email d;
     FormData.phone := Some p;
     FormData.password := FormData.password d |}.

(** A clock that reads [t] at every call. *)
Definition still (t : timestamp) : nat -> timestamp := fun _ => t.

(** * Sample data *)

(** The first digit of the decimal expansion of a positive integer: the
    integer is cut down to its first one or two digits with an estimate of
    its number of digits, and then to the first. *)
Definition first_digit (a : Z) : Z :=
  let d := a / 10 ^ (Z.log2 a * 1233 / 4096) in
  if (10 <=? d)%Z then d / 10 else d.

(** Built-ins for the examples.  [parseInt] reads off the exponent form
    the first digit of the decimal expansion, with the sign; JavaScript
    does so whenever the shortest decimal form of the Number starts with
    that digit, as it does for 1e21, printed 1e+21. *)
Global Instance sample_builtins : Builtins :=
  {| parseInt_exponent_form := fun n => Z.sgn n * first_digit (Z.abs n) |}.

(** The storage the constructor leaves on a first visit. *)
Definition seeded : localStorage :=
  save (defaultUsers 1000 1001)
       {| item_users := None; item_currentUser := None |}.

(** The two seed records of that storage. *)
Definition john_record : user :=
  {| id := 1; firstName := "John"; lastName := "Doe";
     email := "john@example.com"; phone := "+1234567890";
     password := "Password123!"; createdAt := 1000;
     lastLogin := None; isActive := true |}.

Definition jane_record : user :=
  {| id := 2; firstName := "Jane"; lastName := "Smith";
     email := "jane@example.com"; phone := "+0987654321";
     password := "SecurePass456@"; createdAt := 1001;
     lastLogin := None; isActive := true |}.

Definition jane_address : string := "Jane@Example.com".
Definition jane_password : string := "SecurePass456@".

(** The creation input of the scenario of the specification, the record it
    gives on the seeded collection at the clock reading 2000, and the same
    input in another letter case. *)
Definition alice : UserData.t :=
  {| UserData.firstName := "Alice"; UserData.lastName := "Wilson";
     UserData.email := "Alice@X.com"; UserData.phone := "+15556667777";
     UserData.password := "Secret123!" |}.

Definition alice_record : user :=
  {| id := 3; firstName := "Alice"; lastName := "Wilson";
     email := "alice@x.com"; phone := "+15556667777";
     password := "Secret123!"; createdAt := 2000;
     lastLogin := None; isActive := true |}.

Definition alice_upper : UserData.t :=
  {| UserData.firstName := "Alice"; UserData.lastName := "Wilson";
     UserData.email := "ALICE@x.COM"; UserData.phone := "+15556667777";
     UserData.password := "Secret123!" |}.

(** Two creation inputs for the email of the first seed record. *)
Definition john_mixed : UserData.t :=
  {| UserData.firstName := "John"; UserData.lastName := "Doe";
     UserData.email := "John@Example.com"; UserData.phone := "+1234567890";
     UserData.password := "Password123!" |}.

Definition john_upper : UserData.t :=
  {| UserData.firstName := "John"; UserData.lastName := "Doe";
     UserData.email := "JOHN@EXAMPLE.COM"; UserData.phone := "+1234567890";
     UserData.password := "Password123!" |}.

(** An update that gives a record the email of the first seed record. *)
Definition take_johns_email : Update.t :=
  {| Update.id := None; Update.firstName := None; Update.lastName := None;
     Update.email := Some "john@example.com"; Update.phone := None;
     Update.password := None; Update.createdAt := None;
     Update.lastLogin := None; Update.isActive := None |}.

(** Records of a snapshot, exported elsewhere. *)
Definition carol : user :=
  {| id := 1; firstName := "Carol"; lastName := "Reyes";
     email := "carol@x.com"; phone := "+15550001111";
     password := "CarolPass1!"; createdAt := 900;
     lastLogin := None; isActive := true |}.

Definition dave : user :=
  {| id := 2; firstName := "Dave"; lastName := "Okoro";
     email := "dave@x.com"; phone := "+15550002222";
     password := "DavePass22!"; createdAt := 901;
     lastLogin := None; isActive := true |}.

(** A second record for Carol's address. *)
Definition carol_again : user :=
  {| id := 5; firstName := "Caroline"; lastName := "Reyes";
     email := "carol@x.com"; phone := "+15550003333";
     password := "Another33!"; createdAt := 902;
     lastLogin := None; isActive := true |}.

(** A record for the email of the first seed record, in upper case. *)
Definition john_again : user :=
  {| id := 4; firstName := "J."; lastName := "Doe";
     email := "JOHN@example.com"; phone := "+1234567890";
     password := "Password123!"; createdAt := 7;
     lastLogin := None; isActive := true |}.

(** Two new records arrive in a snapshot: a bare array, as [importUsers]
    accepts it. *)
Definition newcomers : text := Text (JArray [carol; dave]).

(** The storage after the seeded collection has merged [newcomers]:
    Carol and Dave both carry the identifier 3. *)
Definition after_merge : localStorage :=
  snd (importUsers newcomers true seeded).

(** The storage after Jane has logged in at the clock reading 5000. *)
Definition after_login : localStorage :=
  snd (authenticateUser jane_address jane_password 5000 seeded).

(** A record whose identifier prints in exponent form, the seeded
    collection with this record at its end, and a collection of this record
    alone. *)
Definition big : user :=
  {| id := 10 ^ 21; firstName := "Big"; lastName := "Number";
     email := "big@x.com"; phone := "+15550004444";
     password := "BigPass444!"; createdAt := 903;
     lastLogin := None; isActive := true |}.

Definition with_big : localStorage :=
  save (collection seeded ++ [big]) seeded.

Definition only_big : localStorage := save [big] seeded.

(** A record with the identifier 2^53, and a collection of it alone. *)
Definition huge : user :=
  {| id := 2 ^ 53; firstName := "Huge"; lastName := "Number";
     email := "huge@x.com"; phone := "+15550005555";
     password := "HugePass555!"; createdAt := 904;
     lastLogin := None; isActive := true |}.

Definition only_huge : localStorage := save [huge] seeded.

(** A form that is in order but for its phone. *)
Definition form_with_phone (p : string) : FormData.t :=
  {| FormData.firstName := Some "Jane"; FormData.lastName := Some "Smith";
     FormData.email := Some "jane@example.com"; FormData.phone := Some p;
     FormData.password := Some "SecurePass456@" |}.

(** * Properties *)

(** ** Lower-casing *)

Lemma toLowerCase_char_idem (c : ascii) :
  toLowerCase_char (toLowerCase_char c) = toLowerCase_char c.
Proof. destruct c as [[] [] [] [] [] [] [] []]; reflexivity. Qed.

Lemma toLowerCase_idem (s : string) :
  toLowerCase (toLowerCase s) = toLowerCase s.
Proof.
  induction s as [|c s IH]; simpl; [reflexivity|].
  now rewrite toLowerCase_char_idem, IH.
Qed.

(** ** First matches *)

Section Find.
Context {A : Type} (P : A -> Prop) `{!forall x, Decision (P x)}.

Lemma list_find_first_at (l : list A) i x :
  list_find P l = Some (i, x) <-> first_at P l i x.
Proof. apply list_find_Some. Qed.

Lemma find_Some_first_at (l : list A) x :
  find P l = Some x <-> exists i, first_at P l i x.
Proof.
  unfold find. split.
  - destruct (list_find P l) as [[i y]|] eqn:E; simpl; [|discriminate].
    intros [= ->]. exists i. now apply list_find_first_at.
  - intros [i Hf%list_find_first_at]. now rewrite Hf.
Qed.

Lemma find_None (l : list A) :
  find P l = None <-> forall x, x ∈ l -> ~ P x.
Proof.
  unfold find. rewrite fmap_None, list_find_None, Forall_forall.
  reflexivity.
Qed.

Lemma first_at_unique (l : list A) i j x y :
  first_at P l i x -> first_at P l j y -> i = j /\ x = y.
Proof.
  intros Hi%list_find_first_at Hj%list_find_first_at.
  rewrite Hi in Hj. now inversion Hj.
Qed.

Lemma first_at_exists (l : list A) x :
  x ∈ l -> P x -> exists i y, first_at P l i y.
Proof.
  intros Hin HP.
  destruct (list_find_elem_of P l x Hin HP) as [[i y] E].
  exists i, y. now apply list_find_first_at.
Qed.
End Find.

(** ** The identifier rule *)

Lemma Math_max_is_max (x : Z) (xs : list Z) : is_max (Math_max x xs) (x :: xs).
Proof.
  unfold Math_max. revert x.
  induction xs as [|y ys IH]; intros x; simpl.
  - split; [left|]. intros z Hz. apply list_elem_of_singleton in Hz. lia.
  - destruct (IH (Z.max x y)) as [Hin Hle]. split.
    + apply elem_of_cons in Hin as [Heq|Hin].
      * rewrite Heq. destruct (Z.max_spec x y) as [[_ ->]|[_ ->]].
        -- right; left.
        -- left.
      * right; right; exact Hin.
    + intros z Hz. apply elem_of_cons in Hz as [->|Hz].
      * etransitivity; [apply (Z.le_max_l _ y)|]. apply Hle. left.
      * apply elem_of_cons in Hz as [->|Hz].
        -- etransitivity; [apply (Z.le_max_r x)|]. apply Hle. left.
        -- apply Hle. right. exact Hz.
Qed.

Lemma generateUserId_run (ls : localStorage) :
  generateUserId ls = (Normal (fresh_id (collection ls)), ls).
Proof. reflexivity. Qed.

(** Rounding leaves the integers up to 2^53 in magnitude as they are. *)
Lemma to_double_exact (x : Z) : Z.abs x <= 2 ^ 53 -> to_double x = x.
Proof.
  intros Hx. unfold to_double.
  now rewrite (proj2 (Z.leb_le _ _) Hx).
Qed.

Lemma Number_add_safe (m : Z) : safe m -> Number_add m 1 = m + 1.
Proof.
  unfold safe, Number_add. intros Hm. apply to_double_exact. lia.
Qed.

(** Above 2^53 a sum may round back: the double after 2^53 is 2^53 + 2. *)
Example Number_add_rounds : Number_add (2 ^ 53) 1 = 2 ^ 53.
Proof. reflexivity. Qed.

Lemma is_max_unique (m m' : Z) (l : list Z) :
  is_max m l -> is_max m' l -> m = m'.
Proof.
  intros [Hin Hle] [Hin' Hle']. specialize (Hle _ Hin').
  specialize (Hle' _ Hin). lia.
Qed.

Lemma fresh_id_spec (users : list user) :
  (users = [] /\ fresh_id users = 1) \/
  (exists m, is_max m (map id users) /\ fresh_id users = Number_add m 1).
Proof.
  unfold fresh_id. destruct users as [|u us]; simpl; [now left|].
  right. exists (Math_max (id u) (map id us)).
  split; [apply Math_max_is_max|reflexivity].
Qed.

Lemma fresh_id_safe_max (users : list user) (m : Z) :
  is_max m (map id users) -> safe m -> fresh_id users = m + 1.
Proof.
  intros Hmax Hsafe.
  destruct (fresh_id_spec users) as [[-> _]|(m' & Hmax' & ->)].
  - destruct Hmax as [Hin _]. inversion Hin.
  - rewrite (is_max_unique _ _ _ Hmax' Hmax). now apply Number_add_safe.
Qed.

Lemma fresh_id_above (users : list user) (u : user) :
  safe_ids users -> u ∈ users -> id u < fresh_id users.
Proof.
  intros Hsafe Hin.
  destruct (fresh_id_spec users) as [[-> _]|(m & Hmax & _)].
  - inversion Hin.
  - assert (Hm : safe m).
    { destruct Hmax as [Hm _].
      apply list_elem_of_fmap in Hm as (v & -> & Hv). now apply Hsafe. }
    rewrite (fresh_id_safe_max _ _ Hmax Hm).
    assert (id u <= m); [|lia].
    destruct Hmax as [_ Hle]. apply Hle. now apply list_elem_of_fmap_2.
Qed.

(** ** Creating *)

Lemma getUserByEmail_run (addr : string) (ls : localStorage) :
  getUserByEmail addr ls = (Normal (find (same_email addr) (collection ls)), ls).
Proof. reflexivity. Qed.

Lemma collection_save users ls : collection (save users ls) = users.
Proof. reflexivity. Qed.

Lemma addUser_run (d : UserData.t) (now : timestamp) (ls : localStorage) :
  addUser d now ls =
  match find (same_email (UserData.email d)) (collection ls) with
  | Some _ => (Throw DuplicateEmail, ls)
  | None =>
      let u := new_record (collection ls) d now in
      (Normal u, save (collection ls ++ [u]) ls)
  end.
Proof.
  unfold addUser, bind, getUsers, getUserByEmail, ret. simpl.
  destruct (find _ _); reflexivity.
Qed.

Lemma same_email_new_record users d now addr :
  same_email addr (new_record users d now) <->
  toLowerCase addr = toLowerCase (UserData.email d).
Proof.
  unfold same_email, new_record; simpl. rewrite toLowerCase_idem.
  split; congruence.
Qed.

(** C3, as the code has it.  Creating a record whose email matches no
    record of the collection, whatever the letter case: the new record
    gets the identifier 1 for an empty collection and max+1 when the
    greatest stored identifier is a safe integer, below 2^53 in magnitude;
    it gets the lower-cased email, no last login and the active flag; it
    is appended at the end of the collection and returned; and a lookup by
    any case variant of the email then returns this very record. *)
Theorem addUser_fresh_email
    (ls : localStorage) (d : UserData.t) (now : timestamp) :
  (forall u, u ∈ collection ls ->
     toLowerCase (email u) <> toLowerCase (UserData.email d)) ->
  exists (u : user) (ls' : localStorage),
    addUser d now ls = (Normal u, ls') /\
    (collection ls = [] -> id u = 1) /\
    (forall m, is_max m (map id (collection ls)) -> Z.abs m < 2 ^ 53 ->
       id u = m + 1) /\
    email u = toLowerCase (UserData.email d) /\
    firstName u = UserData.firstName d /\
    lastName u = UserData.lastName d /\
    phone u = UserData.phone d /\
    password u = UserData.password d /\
    createdAt u = now /\
    lastLogin u = None /\
    isActive u = true /\
    collection ls' = collection ls ++ [u] /\
    item_currentUser ls' = item_currentUser ls /\
    forall addr,
      toLowerCase addr = toLowerCase (UserData.email d) ->
      getUserByEmail addr ls' = (Normal (Some u), ls').
Proof.
  intros Hfresh.
  assert (Hnone : find (same_email (UserData.email d)) (collection ls) = None).
  { apply find_None. intros u Hu. now apply Hfresh. }
  exists (new_record (collection ls) d now),
         (save (collection ls ++ [new_record (collection ls) d now]) ls).
  rewrite addUser_run, Hnone. simpl.
  split; [reflexivity|]. split; [now intros ->|].
  split; [intros m Hmax Hm; now apply fresh_id_safe_max|].
  do 10 (split; [reflexivity|]).
  intros addr Haddr. rewrite getUserByEmail_run, collection_save.
  f_equal. f_equal.
  apply find_Some_first_at. exists (length (collection ls)).
  split; [|split].
  - now rewrite lookup_app_r, Nat.sub_diag by lia.
  - now apply same_email_new_record.
  - intros j y Hy Hj Hsame. rewrite lookup_app_l in Hy by exact Hj.
    apply (Hfresh y); [now apply list_elem_of_lookup_2 in Hy|].
    unfold same_email in Hsame. congruence.
Qed.

Lemma initializeStorage_first_visit :
  initializeStorage 1000 1001 {| item_users := None; item_currentUser := None |}
  = (Normal tt, seeded).
Proof. reflexivity. Qed.

Ltac elem_cases H :=
  repeat (apply elem_of_cons in H as [->|H]); [..|now apply elem_of_nil in H].

Lemma addUser_fresh_email_witness :
  exists (u : user) (ls' : localStorage),
    addUser alice 2000 seeded = (Normal u, ls') /\
    id u = 3 /\ email u = "alice@x.com" /\
    getUserByEmail "ALICE@X.COM" ls' = (Normal (Some u), ls').
Proof.
  destruct (addUser_fresh_email seeded alice 2000)
    as (u & ls' & Hrun & _ & Hid & Hmail & H).
  - intros u Hu. elem_cases Hu; vm_compute; discriminate.
  - exists u, ls'. split; [exact Hrun|]. split; [|split].
    + apply (Hid 2); [|reflexivity].
      change (is_max 2 [1; 2]).
      split; [right; left|]. intros x Hx. elem_cases Hx; lia.
    + exact Hmail.
    + apply H. reflexivity.
Defined.

(** On a collection whose only record carries the identifier 2^53, the
    record created gets 2^53 as well, not 2^53 + 1: the sum is rounded. *)
Lemma addUser_rounds_identifier :
  (forall u, u ∈ collection only_huge ->
     toLowerCase (email u) <> toLowerCase (UserData.email alice)) /\
  is_max (2 ^ 53) (map id (collection only_huge)) /\
  (exists u ls', addUser alice 2000 only_huge = (Normal u, ls') /\
     id u = 2 ^ 53 /\ id u <> 2 ^ 53 + 1 /\
     map id (collection ls') = [2 ^ 53; 2 ^ 53]).
Proof.
  split; [intros u Hu; elem_cases Hu; vm_compute; discriminate|].
  split.
  - change (is_max (2 ^ 53) [2 ^ 53]).
    split; [left|]. intros x Hx. elem_cases Hx. reflexivity.
  - do 2 eexists. split; [rewrite addUser_run; reflexivity|].
    split; [reflexivity|]. split; [discriminate|reflexivity].
Qed.

(** ** Creating twice *)

Lemma filter_same_email_fresh (users : list user) (addr : string) (u : user) :
  (forall v, v ∈ users -> ~ same_email addr v) ->
  same_email addr u ->
  filter (same_email addr) (users ++ [u]) = [u].
Proof.
  intros Hfresh Hu. rewrite filter_app.
  replace (filter (same_email addr) users) with (@nil user).
  - simpl. rewrite filter_cons_True by exact Hu. reflexivity.
  - symmetry. induction users as [|v vs IH]; [reflexivity|].
    rewrite filter_cons_False by (apply Hfresh; left).
    apply IH. intros w Hw. apply Hfresh. now right.
Qed.

(** C4, as the code has it.  For two creation inputs whose emails differ
    only in letter case: once the first creation has been attempted, the
    second fails with DuplicateEmail and leaves the storage as it was; and
    when no record of the collection matches the email, the first creation
    succeeds and the collection then holds exactly one record for that
    email. *)
Theorem addUser_twice
    (ls : localStorage) (d1 d2 : UserData.t) (now1 now2 : timestamp) :
  toLowerCase (UserData.email d1) = toLowerCase (UserData.email d2) ->
  exists (r1 : completion user) (ls1 : localStorage),
    addUser d1 now1 ls = (r1, ls1) /\
    addUser d2 now2 ls1 = (Throw DuplicateEmail, ls1) /\
    ((forall u, u ∈ collection ls ->
        toLowerCase (email u) <> toLowerCase (UserData.email d1)) ->
     exists u, r1 = Normal u /\
       collection ls1 = collection ls ++ [u] /\
       filter (same_email (UserData.email d1)) (collection ls1) = [u]).
Proof.
  intros Hcase.
  destruct (find (same_email (UserData.email d1)) (collection ls))
    as [v|] eqn:Hfind.
  - (* the email is taken: both creations fail *)
    exists (Throw DuplicateEmail), ls. rewrite !addUser_run, Hfind.
    split; [reflexivity|]. split.
    + replace (find (same_email (UserData.email d2)) (collection ls))
        with (Some v); [reflexivity|].
      symmetry. apply find_Some_first_at.
      apply find_Some_first_at in Hfind as [i (Hi & Hv & Hbefore)].
      exists i. unfold same_email in *. rewrite <- Hcase.
      split; [exact Hi|]. split; [exact Hv|]. exact Hbefore.
    + intros Hfresh. apply find_Some_first_at in Hfind as [i (Hi & Hv & _)].
      exfalso. apply (Hfresh v); [now apply list_elem_of_lookup_2 in Hi|].
      exact Hv.
  - (* the email is new: the first creation adds the record *)
    set (u := new_record (collection ls) d1 now1).
    exists (Normal u), (save (collection ls ++ [u]) ls).
    rewrite addUser_run, Hfind. split; [reflexivity|].
    assert (Hnone : forall v, v ∈ collection ls ->
                      ~ same_email (UserData.email d1) v).
    { exact (proj1 (find_None _ _) Hfind). }
    split.
    + rewrite addUser_run, collection_save.
      destruct (find (same_email (UserData.email d2)) (collection ls ++ [u]))
        eqn:Hsecond; [reflexivity|].
      exfalso. apply (proj1 (find_None _ _) Hsecond u).
      * apply elem_of_app. right. left.
      * apply same_email_new_record. now symmetry.
    + intros _. exists u. split; [reflexivity|].
      rewrite collection_save. split; [reflexivity|].
      apply filter_same_email_fresh; [exact Hnone|].
      now apply same_email_new_record.
Qed.

Lemma addUser_twice_witness :
  exists (u : user) (ls1 : localStorage),
    addUser alice 2000 seeded = (Normal u, ls1) /\
    addUser alice_upper 3000 ls1 = (Throw DuplicateEmail, ls1) /\
    filter (same_email "Alice@X.com") (collection ls1) = [u].
Proof.
  destruct (addUser_twice seeded alice alice_upper 2000 3000)
    as (r1 & ls1 & Hfirst & Hsecond & Hfresh); [reflexivity|].
  destruct Hfresh as (u & -> & _ & Hone).
  - intros u Hu. elem_cases Hu; vm_compute; discriminate.
  - exists u, ls1. split; [exact Hfirst|]. split; [exact Hsecond|exact Hone].
Defined.

(** On the seeded collection, which holds john@example.com, the first of
    two creations for that email in other letter cases does not succeed. *)
Lemma addUser_twice_first_may_fail :
  toLowerCase (UserData.email john_mixed)
    = toLowerCase (UserData.email john_upper) /\
  addUser john_mixed 2000 seeded = (Throw DuplicateEmail, seeded) /\
  ~ (exists u ls1, addUser john_mixed 2000 seeded = (Normal u, ls1)).
Proof.
  split; [reflexivity|]. split; [reflexivity|].
  intros (u & ls1 & H). vm_compute in H. discriminate H.
Qed.

(** ** What [parseInt] gives back *)

Lemma parseInt_plain `{!Builtins} (n : Z) : Z.abs n < 10 ^ 21 -> parseInt n = n.
Proof.
  intros Hn. unfold parseInt.
  now rewrite (proj2 (Z.ltb_lt _ _) Hn).
Qed.

Lemma has_id_carries `{!Builtins} (n : Z) (u : user) :
  Z.abs n < 10 ^ 21 -> has_id n u <-> carries n u.
Proof. intros Hn. unfold has_id, carries. now rewrite parseInt_plain. Qed.

Lemma first_at_iff {A} (P Q : A -> Prop) (l : list A) (i : nat) (x : A) :
  (forall y, P y <-> Q y) -> first_at P l i x <-> first_at Q l i x.
Proof.
  intros HPQ. unfold first_at. rewrite HPQ. split.
  - intros (Hi & Hx & Hbefore). split; [exact Hi|]. split; [exact Hx|].
    intros j y Hy Hj HQ. apply (Hbefore j y Hy Hj). now apply HPQ.
  - intros (Hi & Hx & Hbefore). split; [exact Hi|]. split; [exact Hx|].
    intros j y Hy Hj HP. apply (Hbefore j y Hy Hj). now apply HPQ.
Qed.

Lemma first_at_has_id `{!Builtins} (n : Z) (users : list user) (i : nat)
    (u : user) :
  Z.abs n < 10 ^ 21 ->
  first_at (has_id n) users i u <-> first_at (carries n) users i u.
Proof. intros Hn. apply first_at_iff. intros y. now apply has_id_carries. Qed.

(** ** Deleting *)

Lemma filter_all {A} (P : A -> Prop) `{!forall x, Decision (P x)} (l : list A) :
  (forall x, x ∈ l -> P x) -> filter P l = l.
Proof.
  intros HP. induction l as [|x l IH]; [reflexivity|].
  rewrite filter_cons_True by (apply HP; left).
  f_equal. apply IH. intros y Hy. apply HP. now right.
Qed.

(** The records [deleteUser] keeps. *)
Lemma deleteUser_run `{!Builtins} (userId : Z) (ls : localStorage) :
  deleteUser userId ls =
  if (length (collection ls)
      =? length (filter (fun u => ~ has_id userId u) (collection ls)))%nat
  then (Throw NotFound, ls)
  else (Normal true,
        save (filter (fun u => ~ has_id userId u) (collection ls)) ls).
Proof.
  unfold deleteUser, bind, getUsers. simpl.
  destruct (_ =? _)%nat; reflexivity.
Qed.

Lemma deleteUser_none `{!Builtins} (userId : Z) (ls : localStorage) :
  (forall u, u ∈ collection ls -> ~ has_id userId u) ->
  deleteUser userId ls = (Throw NotFound, ls).
Proof.
  intros Habsent. rewrite deleteUser_run.
  rewrite filter_all by exact Habsent.
  now rewrite Nat.eqb_refl.
Qed.

(** C6, as the code has it.  Deleting an identifier that prints as plain
    digits, below 1e21 in magnitude, and that no record of the collection
    carries fails with NotFound, and the storage is left as it was. *)
Theorem deleteUser_absent `{!Builtins} (ls : localStorage) (userId : Z) :
  Z.abs userId < 10 ^ 21 ->
  (forall u, u ∈ collection ls -> id u <> userId) ->
  deleteUser userId ls = (Throw NotFound, ls).
Proof.
  intros Hplain Habsent. apply deleteUser_none.
  intros u Hu Hid. apply (Habsent u Hu).
  exact (proj1 (has_id_carries _ _ Hplain) Hid).
Qed.

Lemma deleteUser_absent_witness :
  deleteUser 7 seeded = (Throw NotFound, seeded).
Proof.
  apply deleteUser_absent; [reflexivity|].
  intros u Hu. elem_cases Hu; vm_compute; discriminate.
Defined.

(** No seed record carries the identifier 1e21, and yet [deleteUser(1e21)]
    succeeds and removes the first seed record: [parseInt] reads 1 off
    the text 1e+21. *)
Lemma deleteUser_reads_exponent_form :
  (forall u, u ∈ collection seeded -> id u <> 10 ^ 21) /\
  fst (deleteUser (10 ^ 21) seeded) = Normal true /\
  collection (snd (deleteUser (10 ^ 21) seeded)) = [jane_record].
Proof.
  split; [intros u Hu; elem_cases Hu; vm_compute; discriminate|].
  split; vm_compute; reflexivity.
Qed.

(** ** Updating *)

Lemma updateUser_run `{!Builtins} (userId : Z) (p : Update.t)
    (ls : localStorage) :
  updateUser userId p ls =
  match list_find (has_id userId) (collection ls) with
  | None => (Throw NotFound, ls)
  | Some (i, u) =>
      (Normal (spread u p), save (<[i := spread u p]> (collection ls)) ls)
  end.
Proof.
  unfold updateUser, bind, getUsers. simpl.
  destruct (list_find _ _) as [[i u]|]; reflexivity.
Qed.

Lemma overwritten_default {A} (old : A) (supplied : option A) :
  overwritten old supplied (default old supplied).
Proof. destruct supplied; reflexivity. Qed.

(** C8, as the code has it.  When the identifier prints as plain digits,
    below 1e21 in magnitude, and the collection has a record with it,
    [updateUser] takes the first such record, overwrites the fields the
    update supplies and keeps the others, puts the result back at the same
    position, leaves every other record and the session item alone, and
    returns the updated record.  It succeeds for every update: the email is
    not compared with the emails of the other records. *)
Theorem updateUser_frame `{!Builtins}
    (ls : localStorage) (userId : Z) (p : Update.t) :
  Z.abs userId < 10 ^ 21 ->
  (exists v, v ∈ collection ls /\ id v = userId) ->
  exists (i : nat) (u u' : user) (ls' : localStorage),
    first_at (carries userId) (collection ls) i u /\
    updateUser userId p ls = (Normal u', ls') /\
    collection ls' !! i = Some u' /\
    (forall j, j <> i -> collection ls' !! j = collection ls !! j) /\
    length (collection ls') = length (collection ls) /\
    item_currentUser ls' = item_currentUser ls /\
    overwritten (id u) (Update.id p) (id u') /\
    overwritten (firstName u) (Update.firstName p) (firstName u') /\
    overwritten (lastName u) (Update.lastName p) (lastName u') /\
    overwritten (email u) (Update.email p) (email u') /\
    overwritten (phone u) (Update.phone p) (phone u') /\
    overwritten (password u) (Update.password p) (password u') /\
    overwritten (createdAt u) (Update.createdAt p) (createdAt u') /\
    overwritten (lastLogin u) (Update.lastLogin p) (lastLogin u') /\
    overwritten (isActive u) (Update.isActive p) (isActive u').
Proof.
  intros Hplain (v & Hin & Hid).
  destruct (first_at_exists (carries userId) (collection ls) v Hin Hid)
    as (i & u & Hfirst).
  exists i, u, (spread u p), (save (<[i := spread u p]> (collection ls)) ls).
  split; [exact Hfirst|].
  rewrite updateUser_run.
  rewrite (proj2 (list_find_first_at _ _ _ _)
             (proj2 (first_at_has_id _ _ _ _ Hplain) Hfirst)).
  split; [reflexivity|]. rewrite collection_save.
  destruct Hfirst as (Hi & _ & _).
  split; [apply list_lookup_insert_eq; now apply lookup_lt_Some in Hi|].
  split; [intros j Hj; now apply list_lookup_insert_ne|].
  split; [apply length_insert|]. split; [reflexivity|].
  repeat split; apply overwritten_default.
Qed.

Lemma updateUser_frame_witness :
  exists (u' : user) (ls' : localStorage),
    updateUser 2 (lastLogin_update 4000) seeded = (Normal u', ls') /\
    overwritten None (Some (Some 4000)) (lastLogin u') /\
    length (collection ls') = 2%nat.
Proof.
  destruct (updateUser_frame seeded 2 (lastLogin_update 4000))
    as (i & u & u' & ls' & _ & Hrun & _ & _ & Hlen & _ & H).
  - reflexivity.
  - eexists. split; [right; left|reflexivity].
  - exists u', ls'. split; [exact Hrun|]. split; [|exact Hlen].
    destruct H as (_ & _ & _ & _ & _ & _ & _ & Hlogin & _). exact Hlogin.
Defined.

(** The collection holds a record with the identifier 1e21, the last one,
    and yet [updateUser(1e21, ...)] rewrites and returns the first seed
    record and leaves that record as it was: [parseInt] reads 1 off the
    text 1e+21. *)
Lemma updateUser_reads_exponent_form :
  big ∈ collection with_big /\ id big = 10 ^ 21 /\
  fst (updateUser (10 ^ 21) (lastLogin_update 4000) with_big)
    = Normal (logged_in john_record 4000) /\
  collection (snd (updateUser (10 ^ 21) (lastLogin_update 4000) with_big))
    = [logged_in john_record 4000; jane_record; big].
Proof.
  split; [do 2 right; left|]. split; [reflexivity|].
  split; vm_compute; reflexivity.
Qed.

Example updateUser_duplicate_email :
  fst (updateUser 2 take_johns_email seeded)
  = Normal {| id := 2; firstName := "Jane"; lastName := "Smith";
              email := "john@example.com"; phone := "+0987654321";
              password := "SecurePass456@"; createdAt := 1001;
              lastLogin := None; isActive := true |} /\
  map email (collection (snd (updateUser 2 take_johns_email seeded)))
  = ["john@example.com"; "john@example.com"].
Proof. split; vm_compute; reflexivity. Qed.

(** ** Authenticating *)

Lemma authenticateUser_run `{!Builtins} (addr pwd : string) (now : timestamp)
    (ls : localStorage) :
  authenticateUser addr pwd now ls =
  match find (same_email addr) (collection ls) with
  | None => (Throw NotFound, ls)
  | Some u =>
      if negb (isActive u) then (Throw AccountDisabled, ls)
      else if negb (bool_decide (password u = pwd))
      then (Throw InvalidCredentials, ls)
      else
        match list_find (has_id (id u)) (collection ls) with
        | None => (Throw NotFound, ls)
        | Some (i, v) =>
            (Normal u,
             save (<[i := spread v (lastLogin_update now)]> (collection ls)) ls)
        end
  end.
Proof.
  unfold authenticateUser, bind. rewrite getUserByEmail_run.
  destruct (find _ _) as [u|]; [|reflexivity].
  destruct (isActive u); simpl; [|reflexivity].
  destruct (bool_decide _); simpl; [|reflexivity].
  rewrite updateUser_run.
  destruct (list_find _ _) as [[i v]|]; reflexivity.
Qed.

Lemma first_at_find {A} (P : A -> Prop) `{!forall x, Decision (P x)}
    (l : list A) i x :
  first_at P l i x -> find P l = Some x.
Proof. intros Hf. apply find_Some_first_at. now exists i. Qed.

Lemma first_at_same_email_insert (addr : string) (users : list user)
    (i : nat) (u : user) (now : timestamp) :
  first_at (same_email addr) users i u ->
  first_at (same_email addr) (<[i := logged_in u now]> users) i
           (logged_in u now).
Proof.
  intros (Hi & Hu & Hbefore). split; [|split].
  - apply list_lookup_insert_eq. now apply lookup_lt_Some in Hi.
  - exact Hu.
  - intros j y Hy Hj. rewrite list_lookup_insert_ne in Hy by lia.
    now apply (Hbefore j).
Qed.

(** A login that passes the three checks, on a record whose identifier
    prints as plain digits: the record is returned, and the first record
    with its identifier is stamped. *)
Lemma authenticateUser_returns `{!Builtins} (ls : localStorage)
    (addr pwd : string) (now : timestamp) (i : nat) (u : user) :
  first_at (same_email addr) (collection ls) i u ->
  isActive u = true ->
  password u = pwd ->
  Z.abs (id u) < 10 ^ 21 ->
  exists (j : nat) (v : user),
    first_at (carries (id u)) (collection ls) j v /\
    authenticateUser addr pwd now ls =
    (Normal u, save (<[j := logged_in v now]> (collection ls)) ls).
Proof.
  intros Hmail Hactive Hpwd Hplain.
  assert (Hin : u ∈ collection ls).
  { destruct Hmail as (Hi & _). now apply list_elem_of_lookup_2 in Hi. }
  destruct (first_at_exists (carries (id u)) (collection ls) u Hin eq_refl)
    as (j & v & Hfirst).
  exists j, v. split; [exact Hfirst|].
  rewrite authenticateUser_run, (first_at_find _ _ _ _ Hmail), Hactive.
  simpl. rewrite bool_decide_eq_true_2 by exact Hpwd. simpl.
  now rewrite (proj2 (list_find_first_at _ _ _ _)
                 (proj2 (first_at_has_id _ _ _ _ Hplain) Hfirst)).
Qed.

(** The same, when the record is the first one carrying its identifier. *)
Lemma authenticateUser_success `{!Builtins} (ls : localStorage)
    (addr pwd : string) (now : timestamp) (i : nat) (u : user) :
  first_at (same_email addr) (collection ls) i u ->
  isActive u = true ->
  password u = pwd ->
  Z.abs (id u) < 10 ^ 21 ->
  first_at (carries (id u)) (collection ls) i u ->
  authenticateUser addr pwd now ls =
  (Normal u, save (<[i := logged_in u now]> (collection ls)) ls).
Proof.
  intros Hmail Hactive Hpwd Hplain Hid.
  destruct (authenticateUser_returns ls addr pwd now i u
              Hmail Hactive Hpwd Hplain) as (j & v & Hfirst & ->).
  now destruct (first_at_unique _ _ _ _ _ _ Hfirst Hid) as [-> ->].
Qed.

(** C2, as the code has it.  [authenticateUser] fails with NotFound when
    no record matches the email in any letter case; with AccountDisabled
    when the first matching record is inactive, whatever the password; with
    InvalidCredentials when that record is active and its password is not
    the given string; in these cases the storage is left as it was.
    Otherwise, when the identifier of the matched record prints as plain
    digits, below 1e21 in magnitude, the call returns the matched record;
    and when moreover the matched record is the first record that carries
    its identifier, the record stored at its position gets the clock
    reading as last login, a time not before the call, and every other
    record stays as it was. *)
Theorem authenticateUser_outcomes `{!Builtins}
    (ls : localStorage) (addr pwd : string) (now : timestamp) :
  ((forall u, u ∈ collection ls ->
      toLowerCase (email u) <> toLowerCase addr) ->
   authenticateUser addr pwd now ls = (Throw NotFound, ls)) /\
  (forall (i : nat) (u : user),
     first_at (same_email addr) (collection ls) i u ->
     (isActive u = false ->
      authenticateUser addr pwd now ls = (Throw AccountDisabled, ls)) /\
     (isActive u = true -> password u <> pwd ->
      authenticateUser addr pwd now ls = (Throw InvalidCredentials, ls)) /\
     (isActive u = true -> password u = pwd -> Z.abs (id u) < 10 ^ 21 ->
      exists ls' : localStorage,
        authenticateUser addr pwd now ls = (Normal u, ls') /\
        item_currentUser ls' = item_currentUser ls /\
        (first_at (carries (id u)) (collection ls) i u ->
         exists u' : user,
           collection ls' !! i = Some u' /\
           lastLogin u' = Some now /\
           (forall t_call, t_call <= now ->
              exists t, lastLogin u' = Some t /\ t_call <= t) /\
           (id u', firstName u', lastName u', email u', phone u',
             password u', createdAt u', isActive u')
           = (id u, firstName u, lastName u, email u, phone u,
               password u, createdAt u, isActive u) /\
           (forall j, j <> i ->
              collection ls' !! j = collection ls !! j)))).
Proof.
  split.
  - intros Hnone. rewrite authenticateUser_run.
    replace (find (same_email addr) (collection ls)) with (@None user);
      [reflexivity|].
    symmetry. apply find_None. intros u Hu. now apply Hnone.
  - intros i u Hmail. split; [|split].
    + intros Hoff.
      now rewrite authenticateUser_run, (first_at_find _ _ _ _ Hmail), Hoff.
    + intros Hon Hpwd.
      rewrite authenticateUser_run, (first_at_find _ _ _ _ Hmail), Hon.
      simpl. now rewrite bool_decide_eq_false_2 by exact Hpwd.
    + intros Hon Hpwd Hplain.
      destruct (authenticateUser_returns ls addr pwd now i u
                  Hmail Hon Hpwd Hplain) as (j & v & Hfirst & Hrun).
      eexists. split; [exact Hrun|]. split; [reflexivity|].
      intros Hid. destruct (first_at_unique _ _ _ _ _ _ Hfirst Hid) as [-> ->].
      exists (logged_in u now). rewrite collection_save.
      destruct Hmail as (Hi & _ & _).
      split; [apply list_lookup_insert_eq; now apply lookup_lt_Some in Hi|].
      split; [reflexivity|].
      split; [intros t Ht; exists now; now split|].
      split; [reflexivity|].
      intros k Hk. now apply list_lookup_insert_ne.
Qed.

Lemma first_at_head {A} (P : A -> Prop) (x : A) (l : list A) :
  P x -> first_at P (x :: l) 0 x.
Proof. intros HP. split; [reflexivity|]. split; [exact HP|]. lia. Qed.

Lemma first_at_tail {A} (P : A -> Prop) (x y : A) (l : list A) (i : nat) :
  ~ P x -> first_at P l i y -> first_at P (x :: l) (S i) y.
Proof.
  intros Hx (Hi & Hy & Hbefore). split; [exact Hi|]. split; [exact Hy|].
  intros [|j] z Hz Hj.
  - now injection Hz as <-.
  - apply (Hbefore j); [exact Hz|lia].
Qed.

Lemma jane_by_email :
  first_at (same_email jane_address) (collection seeded) 1 jane_record.
Proof.
  apply first_at_tail; [vm_compute; discriminate|].
  apply first_at_head. reflexivity.
Defined.

Lemma jane_by_id : first_at (carries 2) (collection seeded) 1 jane_record.
Proof.
  apply first_at_tail; [vm_compute; discriminate|].
  apply first_at_head. reflexivity.
Defined.

Lemma authenticateUser_outcomes_witness :
  authenticateUser "nobody@example.com" "x" 5000 seeded
    = (Throw NotFound, seeded) /\
  authenticateUser jane_address "wrong" 5000 seeded
    = (Throw InvalidCredentials, seeded) /\
  exists (ls' : localStorage) (u' : user),
    authenticateUser jane_address jane_password 5000 seeded
      = (Normal jane_record, ls') /\
    collection ls' !! 1%nat = Some u' /\ lastLogin u' = Some 5000.
Proof.
  split; [|split].
  - apply (authenticateUser_outcomes seeded "nobody@example.com" "x" 5000).
    intros u Hu. elem_cases Hu; vm_compute; discriminate.
  - destruct (authenticateUser_outcomes seeded jane_address "wrong" 5000)
      as [_ H].
    destruct (H _ _ jane_by_email) as (_ & Hwrong & _).
    apply Hwrong; [reflexivity|vm_compute; discriminate].
  - destruct (authenticateUser_outcomes seeded jane_address jane_password 5000)
      as [_ H].
    destruct (H _ _ jane_by_email) as (_ & _ & Hok).
    destruct (Hok eq_refl eq_refl eq_refl) as (ls' & Hrun & _ & Hstamp).
    destruct (Hstamp jane_by_id) as (u' & Hi & Hlogin & _).
    exists ls', u'. split; [exact Hrun|]. split; assumption.
Defined.

(** ** Importing and exporting *)

Lemma unknown_email_forall (users : list user) (r : user) :
  unknown_email users r <->
  forall v, v ∈ users -> toLowerCase (email v) <> toLowerCase (email r).
Proof. apply Forall_forall. Qed.

Lemma unknown_email_find (users : list user) (r : user) :
  unknown_email users r <-> find (same_email (email r)) users = None.
Proof. rewrite unknown_email_forall, find_None. reflexivity. Qed.

Lemma merge_one_run (mergedUsers : list user) (r : user) (ls : localStorage) :
  merge_one mergedUsers r ls =
  (Normal (mergedUsers ++ appended (collection ls) [r]), ls).
Proof.
  unfold merge_one, bind, appended. rewrite getUserByEmail_run.
  destruct (find _ _) as [v|] eqn:E.
  - rewrite filter_cons_False, filter_nil.
    + simpl. now rewrite app_nil_r.
    + intros H%unknown_email_find. congruence.
  - rewrite filter_cons_True by now apply unknown_email_find.
    reflexivity.
Qed.

Lemma appended_cons (stored : list user) (r : user) (rest : list user) :
  appended stored (r :: rest) = appended stored [r] ++ appended stored rest.
Proof.
  unfold appended. change (r :: rest) with ([r] ++ rest).
  now rewrite filter_app, map_app.
Qed.

Lemma forEach_merge_run (importedUsers mergedUsers : list user)
    (ls : localStorage) :
  forEach_merge importedUsers mergedUsers ls =
  (Normal (mergedUsers ++ appended (collection ls) importedUsers), ls).
Proof.
  revert mergedUsers.
  induction importedUsers as [|r rest IH]; intros mergedUsers; simpl.
  - unfold ret, appended. rewrite filter_nil. simpl. now rewrite app_nil_r.
  - unfold bind. rewrite merge_one_run, IH, (appended_cons _ r rest).
    now rewrite app_assoc.
Qed.

Lemma import_selects (jsonData : text) (importedUsers : list user) :
  user_list jsonData = Some importedUsers ->
  forall ls,
    (let* data := JSON_parse jsonData in users_or_self data) ls
    = (Normal (JArray importedUsers), ls).
Proof.
  intros Hlist ls.
  destruct jsonData as [msg|[| |l|[[| |l|]|] meta]]; try discriminate Hlist;
    injection Hlist as ->; reflexivity.
Qed.

Lemma importUsers_merge_run (jsonData : text) (importedUsers : list user)
    (ls : localStorage) :
  user_list jsonData = Some importedUsers ->
  importUsers jsonData true ls =
  (Normal (Z.of_nat (length (appended (collection ls) importedUsers))),
   save (collection ls ++ appended (collection ls) importedUsers) ls).
Proof.
  intros Hlist. pose proof (import_selects _ _ Hlist ls) as Hsel.
  unfold importUsers, try_catch, bind in *.
  destruct (JSON_parse jsonData ls) as [[data|e] ls1]; [|discriminate Hsel].
  rewrite Hsel. unfold getUsers. rewrite forEach_merge_run.
  simpl. unfold ret, save. f_equal. f_equal.
  rewrite length_app. lia.
Qed.

Lemma importUsers_replace_run (jsonData : text) (importedUsers : list user)
    (ls : localStorage) :
  user_list jsonData = Some importedUsers ->
  importUsers jsonData false ls =
  (Normal (Z.of_nat (length importedUsers)), save importedUsers ls).
Proof.
  intros Hlist. pose proof (import_selects _ _ Hlist ls) as Hsel.
  unfold importUsers, try_catch, bind in *.
  destruct (JSON_parse jsonData ls) as [[data|e] ls1]; [|discriminate Hsel].
  rewrite Hsel. reflexivity.
Qed.

(** A snapshot without an array of users is refused, in either mode, and
    the storage is left as it was. *)
Lemma importUsers_refused (jsonData : text) (mergeMode : bool)
    (ls : localStorage) :
  user_list jsonData = None ->
  exists msg,
    importUsers jsonData mergeMode ls
    = (Throw (Error ("Failed to import users: " ++ msg)), ls).
Proof.
  intros Hlist.
  destruct jsonData as [msg|[|b|l|[[|b|l|up mp]|] meta]];
    try discriminate Hlist; try destruct b; eexists; reflexivity.
Qed.

Lemma exportUsers_run (now : timestamp) (ls : localStorage) :
  exportUsers now ls =
  (Normal (Text (JObject (Some (JArray (collection ls)))
                         (Some {| exportDate := now;
                                  totalUsers := Z.of_nat (length (collection ls));
                                  version := "1.0" |}))),
   ls).
Proof. reflexivity. Qed.

(** C5.  Exporting, then importing the exported snapshot in replace mode,
    into the same storage or any later one, leaves a collection equal to
    the exported one, record for record; the import returns the size of the
    snapshot, which is the size of the collection afterwards. *)
Theorem export_import_roundtrip
    (ls later : localStorage) (now : timestamp) :
  exists (snapshot : text) (ls' : localStorage),
    exportUsers now ls = (Normal snapshot, ls) /\
    user_list snapshot = Some (collection ls) /\
    importUsers snapshot false later
      = (Normal (Z.of_nat (length (collection ls))), ls') /\
    collection ls' = collection ls /\
    (forall u, u ∈ collection ls' <-> u ∈ collection ls) /\
    length (collection ls') = length (collection ls) /\
    item_currentUser ls' = item_currentUser later.
Proof.
  eexists. exists (save (collection ls) later).
  split; [apply exportUsers_run|].
  split; [reflexivity|].
  split; [now apply importUsers_replace_run|].
  rewrite collection_save. repeat split; auto.
Qed.

(** ** Merging *)

Lemma filter_keeps_order {A} (P : A -> Prop) `{!forall x, Decision (P x)}
    (l : list A) (i j : nat) (x y : A) :
  (i < j)%nat -> l !! i = Some x -> l !! j = Some y -> P x -> P y ->
  exists k1 k2, (k1 < k2)%nat /\
    filter P l !! k1 = Some x /\ filter P l !! k2 = Some y.
Proof.
  intros Hij Hi Hj Hx Hy.
  pose proof (take_drop_middle l i x Hi) as Hsplit.
  assert (Hj' : drop (S i) l !! (j - S i)%nat = Some y).
  { rewrite lookup_drop. replace (S i + (j - S i))%nat with j by lia.
    exact Hj. }
  pose proof (take_drop_middle _ _ y Hj') as Hsplit'.
  set (l1 := take i l) in *. set (l2 := take (j - S i) (drop (S i) l)) in *.
  set (l3 := drop (S (j - S i)) (drop (S i) l)) in *.
  rewrite <- Hsplit, <- Hsplit'.
  rewrite filter_app, filter_cons_True by exact Hx.
  rewrite filter_app, filter_cons_True by exact Hy.
  exists (length (filter P l1)),
         (length (filter P l1) + S (length (filter P l2)))%nat.
  split; [lia|]. split.
  - rewrite lookup_app_r by lia. now rewrite Nat.sub_diag.
  - rewrite lookup_app_r by lia.
    replace (length (filter P l1) + S (length (filter P l2))
             - length (filter P l1))%nat
      with (S (length (filter P l2))) by lia.
    simpl. rewrite lookup_app_r by lia. now rewrite Nat.sub_diag.
Qed.

Lemma unknown_email_same (stored : list user) (r1 r2 : user) :
  email r1 = email r2 -> unknown_email stored r1 -> unknown_email stored r2.
Proof. unfold unknown_email. now intros <-. Qed.

(** C10.  In merge mode, two records of the snapshot that share an email
    which no record of the stored collection has are both appended, each
    with the identifier computed from the stored collection: the stored
    collection is what the duplicate check reads for every snapshot record,
    and it is rewritten only at the end.  The resulting collection holds
    two records with the same email. *)
Theorem importUsers_merge_duplicate_emails
    (ls : localStorage) (jsonData : text) (importedUsers : list user)
    (i j : nat) (r1 r2 : user) :
  user_list jsonData = Some importedUsers ->
  (i < j)%nat ->
  importedUsers !! i = Some r1 ->
  importedUsers !! j = Some r2 ->
  email r1 = email r2 ->
  (forall v, v ∈ collection ls ->
     toLowerCase (email v) <> toLowerCase (email r1)) ->
  exists (n : Z) (ls' : localStorage) (k1 k2 : nat),
    importUsers jsonData true ls = (Normal n, ls') /\
    take (length (collection ls)) (collection ls') = collection ls /\
    (length (collection ls) <= k1 < k2)%nat /\
    collection ls' !! k1 = Some (with_id r1 (fresh_id (collection ls))) /\
    collection ls' !! k2 = Some (with_id r2 (fresh_id (collection ls))) /\
    (forall r, r ∈ importedUsers -> email r = email r1 ->
       with_id r (fresh_id (collection ls))
         ∈ drop (length (collection ls)) (collection ls')) /\
    ~ NoDup (map email (collection ls')).
Proof.
  intros Hlist Hij Hi Hj Hsame Hnew%unknown_email_forall.
  assert (Hnew2 : unknown_email (collection ls) r2).
  { now apply (unknown_email_same _ r1). }
  destruct (filter_keeps_order (unknown_email (collection ls))
              importedUsers i j r1 r2 Hij Hi Hj Hnew Hnew2)
    as (k1 & k2 & Hk & Hk1 & Hk2).
  set (stored := collection ls) in *.
  set (f := fun r => with_id r (fresh_id stored)).
  assert (Ha1 : appended stored importedUsers !! k1 = Some (f r1)).
  { unfold appended. now rewrite list_lookup_fmap, Hk1. }
  assert (Ha2 : appended stored importedUsers !! k2 = Some (f r2)).
  { unfold appended. now rewrite list_lookup_fmap, Hk2. }
  exists (Z.of_nat (length (appended stored importedUsers))),
         (save (stored ++ appended stored importedUsers) ls),
         (length stored + k1)%nat, (length stored + k2)%nat.
  split; [now apply importUsers_merge_run|].
  rewrite collection_save.
  assert (Hl1 : (stored ++ appended stored importedUsers)
                  !! (length stored + k1)%nat = Some (f r1)).
  { rewrite lookup_app_r by lia.
    now replace (length stored + k1 - length stored)%nat with k1 by lia. }
  assert (Hl2 : (stored ++ appended stored importedUsers)
                  !! (length stored + k2)%nat = Some (f r2)).
  { rewrite lookup_app_r by lia.
    now replace (length stored + k2 - length stored)%nat with k2 by lia. }
  split; [now rewrite take_app_length|].
  split; [lia|]. split; [exact Hl1|]. split; [exact Hl2|]. split.
  - intros r Hr Hmail. rewrite drop_app_length. unfold appended.
    apply (list_elem_of_fmap_2 f). apply list_elem_of_filter.
    split; [|exact Hr]. apply (unknown_email_same _ r1); [now symmetry|].
    exact Hnew.
  - intros Hnodup.
    assert (length stored + k1 = length stored + k2)%nat; [|lia].
    apply (NoDup_lookup _ _ _ (email r1) Hnodup);
      rewrite list_lookup_fmap.
    + now rewrite Hl1.
    + rewrite Hl2. simpl. now rewrite Hsame.
Qed.

Lemma importUsers_merge_duplicate_emails_witness :
  exists (n : Z) (ls' : localStorage),
    importUsers (Text (JArray [carol; carol_again])) true seeded
      = (Normal n, ls') /\
    ~ NoDup (map email (collection ls')).
Proof.
  destruct (importUsers_merge_duplicate_emails seeded
              (Text (JArray [carol; carol_again])) [carol; carol_again]
              0 1 carol carol_again)
    as (n & ls' & k1 & k2 & Hrun & _ & _ & _ & _ & _ & Hdup);
    try reflexivity; [lia| |].
  - intros v Hv. elem_cases Hv; vm_compute; discriminate.
  - exists n, ls'. split; [exact Hrun|exact Hdup].
Defined.

(** C1, at an input where the code departs from it.  Merging a snapshot
    with two new emails into the seeded collection adds both records and
    returns 2, and gives both the identifier 3: [generateUserId] reads the
    stored collection, which the loop has not rewritten yet. *)
Theorem importUsers_merge_repeats_identifier :
  fst (importUsers newcomers true seeded) = Normal 2 /\
  map email (collection (snd (importUsers newcomers true seeded)))
    = ["john@example.com"; "jane@example.com"; "carol@x.com"; "dave@x.com"] /\
  map id (collection (snd (importUsers newcomers true seeded)))
    = [1; 2; 3; 3] /\
  ~ NoDup (map id (collection (snd (importUsers newcomers true seeded)))).
Proof.
  split; [vm_compute; reflexivity|].
  split; [vm_compute; reflexivity|].
  assert (Hids : map id (collection (snd (importUsers newcomers true seeded)))
                 = [1; 2; 3; 3]) by (vm_compute; reflexivity).
  split; [exact Hids|]. rewrite Hids. intros Hnodup.
  assert (2 = 3)%nat; [|lia].
  now apply (NoDup_lookup _ _ _ 3 Hnodup).
Qed.

(** Every record a merge appends carries one and the same identifier. *)
Lemma appended_same_id (stored importedUsers : list user) (r : user) :
  r ∈ appended stored importedUsers -> id r = fresh_id stored.
Proof.
  unfold appended. intros Hr.
  apply list_elem_of_fmap in Hr as (r0 & -> & _). reflexivity.
Qed.

(** ** Logins that stamp another record *)

(** Three logins with the right password.  On the collection where Carol
    and Dave both carry the identifier 3, Dave's login succeeds, but the
    record stored for his email still has no last login: the timestamp went
    to Carol's record, the first one with the identifier 3.  On the seeded
    collection followed by a record with the identifier 1e21, the login of
    that record succeeds and the timestamp goes to the first seed record.
    On a collection of that record alone the login throws NotFound, though
    the email matches. *)
Lemma authenticateUser_marks_other_record :
  (let result := authenticateUser "dave@x.com" "DavePass22!" 5000 after_merge in
   fst result = Normal (with_id dave 3) /\
   find (same_email "dave@x.com") (collection (snd result))
     = Some (with_id dave 3) /\
   lastLogin (with_id dave 3) = None /\
   find (same_email "carol@x.com") (collection (snd result))
     = Some (logged_in (with_id carol 3) 5000)) /\
  (let result := authenticateUser "big@x.com" "BigPass444!" 5000 with_big in
   fst result = Normal big /\
   collection (snd result) = [logged_in john_record 5000; jane_record; big]) /\
  authenticateUser "big@x.com" "BigPass444!" 5000 only_big
    = (Throw NotFound, only_big).
Proof.
  split; [cbv zeta; split; [|split; [|split]]; vm_compute; reflexivity|].
  split; [cbv zeta; split; vm_compute; reflexivity|].
  vm_compute. reflexivity.
Qed.

(** ** The record a login returns *)

(** C9, as the code has it.  A login that succeeds returns the matched
    record as it was read before the update, so with the last login it had
    before the call.  When the identifier of that record prints as plain
    digits, below 1e21 in magnitude, and the record is the first one
    carrying it, the record stored for the email afterwards has the clock
    reading as last login; the two then differ in last login exactly when
    the value before the call was not the clock reading already, as on a
    first login, where it is null. *)
Theorem authenticateUser_returns_stale `{!Builtins}
    (ls : localStorage) (addr pwd : string) (now : timestamp) :
  (forall (r : user) (ls' : localStorage),
     authenticateUser addr pwd now ls = (Normal r, ls') ->
     exists i : nat, first_at (same_email addr) (collection ls) i r) /\
  (forall (i : nat) (u : user),
     first_at (same_email addr) (collection ls) i u ->
     isActive u = true ->
     password u = pwd ->
     Z.abs (id u) < 10 ^ 21 ->
     first_at (carries (id u)) (collection ls) i u ->
     exists (ls' : localStorage) (stored : user),
       authenticateUser addr pwd now ls = (Normal u, ls') /\
       first_at (same_email addr) (collection ls') i stored /\
       lastLogin stored = Some now /\
       (lastLogin u <> lastLogin stored <-> lastLogin u <> Some now) /\
       (lastLogin u = None -> lastLogin u <> lastLogin stored)).
Proof.
  split.
  - intros r ls' Hrun. rewrite authenticateUser_run in Hrun.
    destruct (find (same_email addr) (collection ls)) as [u|] eqn:Hfind;
      [|discriminate Hrun].
    destruct (negb (isActive u)); [discriminate Hrun|].
    destruct (negb _); [discriminate Hrun|].
    destruct (list_find _ _) as [[j v]|]; [|discriminate Hrun].
    injection Hrun as <- _. exact (proj1 (find_Some_first_at _ _ _) Hfind).
  - intros i u Hmail Hon Hpwd Hplain Hid.
    exists (save (<[i := logged_in u now]> (collection ls)) ls),
           (logged_in u now).
    split; [now apply authenticateUser_success|].
    rewrite collection_save.
    split; [now apply first_at_same_email_insert|].
    split; [reflexivity|]. split; [reflexivity|].
    intros ->. discriminate.
Qed.

Lemma authenticateUser_returns_stale_witness :
  exists (stored : user) (ls' : localStorage),
    authenticateUser jane_address jane_password 5000 seeded
      = (Normal jane_record, ls') /\
    first_at (same_email jane_address) (collection seeded) 1 jane_record /\
    first_at (same_email jane_address) (collection ls') 1 stored /\
    lastLogin jane_record <> lastLogin stored.
Proof.
  destruct (authenticateUser_returns_stale seeded jane_address jane_password
              5000) as [Hpre Hpost].
  destruct (Hpost _ _ jane_by_email eq_refl eq_refl eq_refl jane_by_id)
    as (ls' & stored & Hrun & Hstored & _ & _ & Hfirst).
  exists stored, ls'. split; [exact Hrun|].
  destruct (Hpre _ _ Hrun) as [i Hi].
  destruct (first_at_unique _ _ _ _ _ _ Hi jane_by_email) as [-> _].
  split; [exact Hi|]. split; [exact Hstored|]. now apply Hfirst.
Defined.

(** Three logins where the returned record and the stored one agree on the
    last login.  Jane logs in again while the clock still reads 5000: the
    value from before the call is the value written.  Dave logs in on the
    collection where Carol shares his identifier: his stored record is not
    the one updated.  The record with the identifier 1e21 logs in, alone
    with its identifier: the first seed record is the one updated. *)
Lemma authenticateUser_returned_agrees_with_stored :
  (let result := authenticateUser jane_address jane_password 5000 after_login in
   exists returned stored,
     fst result = Normal returned /\
     find (same_email jane_address) (collection (snd result)) = Some stored /\
     lastLogin returned = Some 5000 /\
     lastLogin returned = lastLogin stored) /\
  (let result := authenticateUser "dave@x.com" "DavePass22!" 5000 after_merge in
   exists returned stored,
     fst result = Normal returned /\
     find (same_email "dave@x.com") (collection (snd result)) = Some stored /\
     lastLogin returned = lastLogin stored) /\
  (let result := authenticateUser "big@x.com" "BigPass444!" 5000 with_big in
   exists returned stored,
     fst result = Normal returned /\
     find (same_email "big@x.com") (collection (snd result)) = Some stored /\
     first_at (carries (id returned)) (collection with_big) 2 returned /\
     lastLogin returned = lastLogin stored).
Proof.
  split; [|split]; cbv zeta.
  - exists (logged_in jane_record 5000), (logged_in jane_record 5000).
    split; [|split; [|split]]; vm_compute; reflexivity.
  - exists (with_id dave 3), (with_id dave 3).
    split; [|split]; vm_compute; reflexivity.
  - exists big, big. split; [vm_compute; reflexivity|].
    split; [vm_compute; reflexivity|]. split; [|reflexivity].
    do 2 (apply first_at_tail; [vm_compute; discriminate|]).
    apply first_at_head. reflexivity.
Qed.

(** ** The language of a pattern *)

Lemma nullable_Matches (r : regex) : nullable r = true <-> Matches r [].
Proof.
  induction r as [| |p|r1 IH1 r2 IH2|r1 IH1 r2 IH2|r IH]; simpl.
  - split; [discriminate|inversion 1].
  - split; auto with regex.
  - split; [discriminate|inversion 1].
  - rewrite andb_true_iff, IH1, IH2. split.
    + intros [H1 H2]. change (@nil ascii) with (@nil ascii ++ []).
      now constructor.
    + inversion 1 as [| |? ? s1 s2 H1 H2 E1 E2| | | |]; subst.
      apply app_eq_nil in E2 as [-> ->]. now split.
  - rewrite orb_true_iff, IH1, IH2. split.
    + intros [H|H]; auto with regex.
    + inversion 1; subst; auto.
  - split; auto with regex.
Qed.

(** A match of [Star r] against a string that is not empty starts with a
    match of [r] that is not empty. *)
Lemma Matches_Star_cons (r : regex) (c : ascii) (s : list ascii) :
  Matches (Star r) (c :: s) ->
  exists s1 s2, s = s1 ++ s2 /\ Matches r (c :: s1) /\ Matches (Star r) s2.
Proof.
  intros H. remember (Star r) as r' eqn:Er. remember (c :: s) as s' eqn:Es.
  induction H as [| | | | | |r0 s1 s2 H1 _ H2 IH2]; try discriminate.
  injection Er as ->. destruct s1 as [|c1 s1]; simpl in Es.
  - now apply IH2.
  - injection Es as -> <-. now exists s1, s2.
Qed.

Lemma deriv_Matches (r : regex) (c : ascii) (s : list ascii) :
  Matches (deriv c r) s <-> Matches r (c :: s).
Proof.
  revert s.
  induction r as [| |p|r1 IH1 r2 IH2|r1 IH1 r2 IH2|r IH]; intros s; simpl.
  - split; inversion 1.
  - split; inversion 1.
  - destruct (p c) eqn:Hp; split.
    + inversion 1; subst. now constructor.
    + inversion 1; subst. constructor.
    + inversion 1.
    + inversion 1; subst. congruence.
  - assert (Hcat : Matches (Cat (deriv c r1) r2) s ->
                   Matches (Cat r1 r2) (c :: s)).
    { inversion 1 as [| |? ? s1 s2 H1 H2| | | |]; subst.
      apply IH1 in H1. change (c :: s1 ++ s2) with ((c :: s1) ++ s2).
      now constructor. }
    assert (Hsplit : Matches (Cat r1 r2) (c :: s) ->
              Matches (Cat (deriv c r1) r2) s \/
              (Matches r1 [] /\ Matches (deriv c r2) s)).
    { inversion 1 as [| |? ? s1 s2 H1 H2 E1 E2| | | |]; subst.
      destruct s1 as [|c1 s1]; simpl in E2.
      - right. subst s2. split; [exact H1|]. now apply IH2.
      - injection E2 as -> <-. left. constructor; [now apply IH1|exact H2]. }
    destruct (nullable r1) eqn:Hn; split.
    + inversion 1; subst; [now apply Hcat|].
      change (c :: s) with ([] ++ c :: s). constructor.
      * now apply nullable_Matches.
      * now apply IH2.
    + intros H. destruct (Hsplit H) as [H'|[_ H']]; auto with regex.
    + exact Hcat.
    + intros H. destruct (Hsplit H) as [H'|[H' _]]; [exact H'|].
      apply nullable_Matches in H'. congruence.
  - split.
    + inversion 1; subst; [apply MAltL|apply MAltR]; [apply IH1|apply IH2];
        assumption.
    + inversion 1; subst; [apply MAltL|apply MAltR]; [apply IH1|apply IH2];
        assumption.
  - split.
    + inversion 1 as [| |? ? s1 s2 H1 H2| | | |]; subst.
      apply IH in H1. change (c :: s1 ++ s2) with ((c :: s1) ++ s2).
      now constructor.
    + intros H. apply Matches_Star_cons in H as (s1 & s2 & -> & H1 & H2).
      constructor; [now apply IH|exact H2].
Qed.

Lemma matches_Matches (r : regex) (s : list ascii) :
  matches r s = true <-> Matches r s.
Proof.
  revert r. induction s as [|c s IH]; intros r; simpl.
  - apply nullable_Matches.
  - rewrite IH. apply deriv_Matches.
Qed.

(** *** Languages of the building blocks *)

Lemma all_nil p : all p [].
Proof. intros c Hc. inversion Hc. Qed.

Lemma all_cons p c s : all p (c :: s) <-> p c = true /\ all p s.
Proof.
  unfold all. split.
  - intros H. split; [apply H; left|]. intros d Hd. apply H. now right.
  - intros [Hc Hs] d Hd. apply elem_of_cons in Hd as [->|Hd]; auto.
Qed.

Lemma all_app p s1 s2 : all p (s1 ++ s2) <-> all p s1 /\ all p s2.
Proof.
  unfold all. split.
  - intros H. split; intros c Hc; apply H, elem_of_app; auto.
  - intros [H1 H2] c Hc. apply elem_of_app in Hc as [Hc|Hc]; auto.
Qed.

Lemma Matches_Class p s :
  Matches (Class p) s <-> exists c, s = [c] /\ p c = true.
Proof.
  split.
  - inversion 1; subst. eauto.
  - intros (c & -> & Hc). now constructor.
Qed.

Lemma Matches_chr c s : Matches (chr c) s <-> s = [c].
Proof.
  unfold chr. rewrite Matches_Class. split.
  - intros (d & -> & Hd). apply Ascii.eqb_eq in Hd. now subst.
  - intros ->. exists c. split; [reflexivity|apply Ascii.eqb_refl].
Qed.

Lemma Matches_Cat r1 r2 s :
  Matches (Cat r1 r2) s <->
  exists s1 s2, s = s1 ++ s2 /\ Matches r1 s1 /\ Matches r2 s2.
Proof.
  split.
  - inversion 1; subst. eauto.
  - intros (s1 & s2 & -> & H1 & H2). now constructor.
Qed.

Lemma Matches_Star_Class p s : Matches (Star (Class p)) s <-> all p s.
Proof.
  split.
  - intros H. remember (Star (Class p)) as r eqn:Er.
    induction H as [| | | | | |r0 s1 s2 H1 _ _ IH2]; try discriminate.
    + apply all_nil.
    + injection Er as ->. apply Matches_Class in H1 as (c & -> & Hc).
      simpl. apply all_cons. auto.
  - induction s as [|c s IH]; intros Hs; [constructor|].
    apply all_cons in Hs as [Hc Hs].
    change (c :: s) with ([c] ++ s). constructor; [now constructor|auto].
Qed.

Lemma Matches_Plus_Class p s :
  Matches (Plus (Class p)) s <-> s <> [] /\ all p s.
Proof.
  unfold Plus. rewrite Matches_Cat. split.
  - intros (s1 & s2 & -> & H1 & H2).
    apply Matches_Class in H1 as (c & -> & Hc).
    apply Matches_Star_Class in H2. split; [discriminate|].
    simpl. apply all_cons. auto.
  - intros [Hne Hs]. destruct s as [|c s]; [congruence|].
    apply all_cons in Hs as [Hc Hs]. exists [c], s.
    split; [reflexivity|]. split; [now constructor|].
    now apply Matches_Star_Class.
Qed.

Lemma Matches_Opt r s : Matches (Opt r) s <-> Matches r s \/ s = [].
Proof.
  unfold Opt. split.
  - inversion 1 as [| | |? ? ? H1|? ? ? H1| |]; subst; [now left|].
    inversion H1. now right.
  - intros [H| ->]; auto with regex.
Qed.

Lemma Matches_UpTo_Class n p s :
  Matches (UpTo n (Class p)) s <-> (length s <= n)%nat /\ all p s.
Proof.
  revert s. induction n as [|n IH]; intros s.
  - simpl. split.
    + inversion 1. split; [simpl; lia|apply all_nil].
    + intros [Hlen _]. destruct s; [constructor|simpl in Hlen; lia].
  - change (UpTo (S n) (Class p)) with (Opt (Cat (Class p) (UpTo n (Class p)))).
    rewrite Matches_Opt, Matches_Cat. split.
    + intros [(s1 & s2 & -> & H1 & H2)| ->].
      * apply Matches_Class in H1 as (c & -> & Hc).
        apply IH in H2 as [Hlen Hs]. simpl.
        split; [lia|]. apply all_cons. auto.
      * split; [simpl; lia|apply all_nil].
    + intros [Hlen Hs]. destruct s as [|c s]; [now right|]. left.
      apply all_cons in Hs as [Hc Hs]. simpl in Hlen.
      exists [c], s. split; [reflexivity|]. split; [now constructor|].
      apply IH. split; [lia|exact Hs].
Qed.

(** *** The two patterns *)

Lemma not_space_at_spec (c : ascii) :
  not_space_at c = true <-> is_space c = false /\ c <> "@"%char.
Proof.
  unfold not_space_at. rewrite negb_true_iff, orb_false_iff.
  rewrite Ascii.eqb_neq. reflexivity.
Qed.

Lemma test_emailRegex (s : string) :
  test emailRegex s = true <-> address_shaped (list_ascii_of_string s).
Proof.
  unfold test, emailRegex, address_shaped. rewrite matches_Matches.
  generalize (list_ascii_of_string s) as l. intros l. split.
  - intros (a & l1 & -> & Ha & H1)%Matches_Cat.
    apply Matches_Cat in H1 as (at_ & l2 & -> & Hat & H2).
    apply Matches_Cat in H2 as (b & l3 & -> & Hb & H3).
    apply Matches_Cat in H3 as (dot & c & -> & Hdot & Hc).
    apply Matches_chr in Hat as ->. apply Matches_chr in Hdot as ->.
    apply Matches_Plus_Class in Ha as [Ha1 Ha2].
    apply Matches_Plus_Class in Hb as [Hb1 Hb2].
    apply Matches_Plus_Class in Hc as [Hc1 Hc2].
    exists a, b, c. simpl. repeat split; assumption.
  - intros (a & b & c & -> & Ha & Hb & Hc & Ha' & Hb' & Hc').
    apply Matches_Cat. exists a, ("@"%char :: b ++ "."%char :: c).
    split; [reflexivity|]. split; [now apply Matches_Plus_Class|].
    apply Matches_Cat. exists ["@"%char], (b ++ "."%char :: c).
    split; [reflexivity|]. split; [now apply Matches_chr|].
    apply Matches_Cat. exists b, ("."%char :: c).
    split; [reflexivity|]. split; [now apply Matches_Plus_Class|].
    apply Matches_Cat. exists ["."%char], c.
    split; [reflexivity|]. split; [now apply Matches_chr|].
    now apply Matches_Plus_Class.
Qed.

Lemma test_phoneRegex (s : string) :
  test phoneRegex s = true <-> phone_shaped (list_ascii_of_string s).
Proof.
  unfold test, phoneRegex, phone_shaped. rewrite matches_Matches.
  generalize (list_ascii_of_string s) as l. intros l. split.
  - intros (sign & l1 & -> & Hsign & H1)%Matches_Cat.
    apply Matches_Cat in H1 as (first & ds & -> & Hfirst & Hds).
    apply Matches_Class in Hfirst as (d & -> & Hd).
    apply Matches_UpTo_Class in Hds as [Hlen Hds].
    exists d, ds. split; [|auto].
    apply Matches_Opt in Hsign as [->%Matches_chr| ->]; auto.
  - intros (d & ds & Hl & Hd & Hds & Hlen).
    assert (Hrest : Matches (Cat (Class (in_range 49 57))
                                 (UpTo 15 (Class is_digit))) (d :: ds)).
    { apply Matches_Cat. exists [d], ds. split; [reflexivity|].
      split; [now constructor|]. now apply Matches_UpTo_Class. }
    apply Matches_Cat. destruct Hl as [-> | ->].
    + exists [], (d :: ds). split; [reflexivity|].
      split; [apply Matches_Opt; now right|exact Hrest].
    + exists ["+"%char], (d :: ds). split; [reflexivity|].
      split; [apply Matches_Opt; left; now apply Matches_chr|exact Hrest].
Qed.

(** ** Trimming *)

Lemma trimStart_spec (s : list ascii) :
  exists pre, s = pre ++ trimStart s /\ all is_space pre /\
    (forall c rest, trimStart s = c :: rest -> is_space c = false).
Proof.
  induction s as [|c s (pre & Hs & Hpre & Hhead)]; simpl.
  - exists []. split; [reflexivity|]. split; [apply all_nil|discriminate].
  - destruct (is_space c) eqn:Hc.
    + exists (c :: pre). split; [simpl; now f_equal|].
      split; [now apply all_cons|exact Hhead].
    + exists []. split; [reflexivity|]. split; [apply all_nil|].
      now intros ? ? [= <- _].
Qed.

Lemma all_rev p (s : list ascii) : all p (rev s) <-> all p s.
Proof.
  unfold all. split; intros H c Hc; apply H;
    apply list_elem_of_In; apply list_elem_of_In in Hc;
    [exact (proj1 (in_rev _ _) Hc)|exact (proj2 (in_rev _ _) Hc)].
Qed.

Lemma trimEnd_spec (s : list ascii) :
  exists post, s = trimEnd s ++ post /\ all is_space post /\
    (forall c rest, trimEnd s = rest ++ [c] -> is_space c = false).
Proof.
  unfold trimEnd.
  destruct (trimStart_spec (rev s)) as (pre & Hs & Hpre & Hhead).
  exists (rev pre). split; [|split].
  - rewrite <- rev_app_distr, <- Hs. now rewrite rev_involutive.
  - now apply all_rev.
  - intros c rest Hrest. apply (Hhead c (rev rest)).
    rewrite <- (rev_involutive (trimStart (rev s))), Hrest.
    now rewrite rev_app_distr.
Qed.

Lemma list_of_trim (s : string) :
  list_ascii_of_string (trim s)
  = trimEnd (trimStart (list_ascii_of_string s)).
Proof. unfold trim. apply list_ascii_of_string_of_list_ascii. Qed.

(** [trim s] is [s] without the white space at its two ends. *)
Lemma trim_spec (s : string) :
  exists pre post : list ascii,
    list_ascii_of_string s = pre ++ list_ascii_of_string (trim s) ++ post /\
    all is_space pre /\ all is_space post /\
    (forall c rest, list_ascii_of_string (trim s) = c :: rest ->
       is_space c = false) /\
    (forall c rest, list_ascii_of_string (trim s) = rest ++ [c] ->
       is_space c = false).
Proof.
  rewrite list_of_trim.
  destruct (trimStart_spec (list_ascii_of_string s))
    as (pre & Hs & Hpre & Hhead).
  destruct (trimEnd_spec (trimStart (list_ascii_of_string s)))
    as (post & He & Hpost & Hlast).
  exists pre, post. split; [now rewrite <- He|].
  split; [exact Hpre|]. split; [exact Hpost|]. split; [|exact Hlast].
  intros c rest Hc. rewrite Hc in He. apply (Hhead c (rest ++ post)).
  now rewrite He.
Qed.

(** ** Validating *)

Lemma length_zero_empty (s : string) :
  (String.length s =? 0)%nat = true -> s = EmptyString.
Proof. destruct s; [reflexivity|discriminate]. Qed.

Lemma falsy_or_spec (bad : string -> bool) (P : string -> Prop)
    (x : option string) :
  (forall s, bad s = true <-> P s) ->
  bad EmptyString = true ->
  falsy_or bad x = true <-> missing_or P x.
Proof.
  intros Hbad Hempty. destruct x as [s|]; simpl; [|tauto].
  rewrite orb_true_iff, Hbad. split; [|auto].
  intros [->%length_zero_empty|Hs]; [|exact Hs].
  now apply Hbad.
Qed.

Lemma errors_validateUserData (d : FormData.t) :
  errors (validateUserData d) =
  (if falsy_or short_name (FormData.firstName d) then [firstName_msg] else []) ++
  (if falsy_or short_name (FormData.lastName d) then [lastName_msg] else []) ++
  (if falsy_or bad_email (FormData.email d) then [email_msg] else []) ++
  (if falsy_or bad_phone (FormData.phone d) then [phone_msg] else []) ++
  (if falsy_or short_password (FormData.password d) then [password_msg] else []).
Proof.
  unfold validateUserData, push_if. simpl.
  destruct (falsy_or short_name (FormData.firstName d)),
           (falsy_or short_name (FormData.lastName d)),
           (falsy_or bad_email (FormData.email d)),
           (falsy_or bad_phone (FormData.phone d)),
           (falsy_or short_password (FormData.password d)); reflexivity.
Qed.

Ltac message_cases :=
  split;
  [ intros Hin;
    repeat (apply elem_of_cons in Hin as [Heq|Hin];
            [first [reflexivity | discriminate Heq]|]);
    now apply elem_of_nil in Hin
  | intros Hb; first [discriminate Hb | apply list_elem_of_In; simpl; tauto] ].

Lemma errors_membership (b1 b2 b3 b4 b5 : bool) :
  let l := (if b1 then [firstName_msg] else []) ++
           (if b2 then [lastName_msg] else []) ++
           (if b3 then [email_msg] else []) ++
           (if b4 then [phone_msg] else []) ++
           (if b5 then [password_msg] else []) in
  (firstName_msg ∈ l <-> b1 = true) /\
  (lastName_msg ∈ l <-> b2 = true) /\
  (email_msg ∈ l <-> b3 = true) /\
  (phone_msg ∈ l <-> b4 = true) /\
  (password_msg ∈ l <-> b5 = true) /\
  sublist l all_messages.
Proof.
  destruct b1, b2, b3, b4, b5; simpl;
    (split; [message_cases|]); (split; [message_cases|]);
    (split; [message_cases|]); (split; [message_cases|]);
    (split; [message_cases|]);
    unfold all_messages;
    repeat first [apply sublist_nil | apply sublist_skip | apply sublist_cons].
Qed.

Lemma short_name_spec (s : string) :
  short_name s = true <-> (String.length (trim s) < 2)%nat.
Proof. unfold short_name. apply Nat.ltb_lt. Qed.

Lemma bad_email_spec (s : string) :
  bad_email s = true <-> ~ address_shaped (list_ascii_of_string s).
Proof.
  unfold bad_email. rewrite negb_true_iff, <- not_true_iff_false.
  now rewrite test_emailRegex.
Qed.

Lemma bad_phone_spec (s : string) :
  bad_phone s = true <->
  ~ phone_shaped (list_ascii_of_string (replace_all phone_separator s)).
Proof.
  unfold bad_phone. rewrite negb_true_iff, <- not_true_iff_false.
  now rewrite test_phoneRegex.
Qed.

Lemma short_password_spec (s : string) :
  short_password s = true <-> (String.length s < 8)%nat.
Proof. unfold short_password. apply Nat.ltb_lt. Qed.

Lemma list_of_replace_all (p : ascii -> bool) (s : string) :
  list_ascii_of_string (replace_all p s)
  = List.filter (fun c => negb (p c)) (list_ascii_of_string s).
Proof. unfold replace_all. apply list_ascii_of_string_of_list_ascii. Qed.

(** C7, as the code has it.  [validateUserData] is a function of the form
    alone.  Its list holds the message of a rule exactly when the rule is
    violated: a name that is missing or shorter than 2 characters once
    trimmed; an email that is missing or not of the shape
    local@domain.tld; a phone that is missing or, once white space, dashes
    and parentheses are deleted, is not an optional plus sign, a digit from
    1 to 9 and at most 15 more digits; a password that is missing or
    shorter than 8 characters.  The messages come in the order of the
    rules, and the flag is true exactly when the list is empty. *)
Theorem validateUserData_reports (d : FormData.t) :
  let v := validateUserData d in
  (firstName_msg ∈ errors v <->
     missing_or (fun s => (String.length (trim s) < 2)%nat)
                (FormData.firstName d)) /\
  (lastName_msg ∈ errors v <->
     missing_or (fun s => (String.length (trim s) < 2)%nat)
                (FormData.lastName d)) /\
  (email_msg ∈ errors v <->
     missing_or (fun s => ~ address_shaped (list_ascii_of_string s))
                (FormData.email d)) /\
  (phone_msg ∈ errors v <->
     missing_or
       (fun s => ~ phone_shaped
                     (List.filter (fun c => negb (phone_separator c))
                                  (list_ascii_of_string s)))
       (FormData.phone d)) /\
  (password_msg ∈ errors v <->
     missing_or (fun s => (String.length s < 8)%nat) (FormData.password d)) /\
  sublist (errors v) all_messages /\
  (isValid v = true <-> errors v = []).
Proof.
  intros v. subst v.
  pose proof (errors_membership
    (falsy_or short_name (FormData.firstName d))
    (falsy_or short_name (FormData.lastName d))
    (falsy_or bad_email (FormData.email d))
    (falsy_or bad_phone (FormData.phone d))
    (falsy_or short_password (FormData.password d))) as H.
  cbv zeta in H. rewrite <- errors_validateUserData in H.
  destruct H as (H1 & H2 & H3 & H4 & H5 & Hsub).
  split; [rewrite H1; now apply falsy_or_spec; [apply short_name_spec|]|].
  split; [rewrite H2; now apply falsy_or_spec; [apply short_name_spec|]|].
  split; [rewrite H3; now apply falsy_or_spec; [apply bad_email_spec|]|].
  split.
  { rewrite H4. apply falsy_or_spec; [|reflexivity].
    intros s. rewrite bad_phone_spec. now rewrite list_of_replace_all. }
  split; [rewrite H5; now apply falsy_or_spec; [apply short_password_spec|]|].
  split; [exact Hsub|].
  simpl. rewrite Nat.eqb_eq. apply length_zero_iff_nil.
Qed.

(** The phone of the second seed record, and a number of 17 digits: both
    are digits with an optional plus sign in front, and for both the
    validator reports the phone, and nothing else. *)
Lemma validateUserData_rejects_digit_phones :
  (digits_with_optional_plus (strip_phone "+0987654321") /\
   validateUserData (form_with_phone "+0987654321")
     = {| isValid := false; errors := [phone_msg] |}) /\
  (digits_with_optional_plus (strip_phone "12345678901234567") /\
   validateUserData (form_with_phone "12345678901234567")
     = {| isValid := false; errors := [phone_msg] |}).
Proof.
  split; (split; [|vm_compute; reflexivity]).
  - exists (strip_phone "0987654321").
    split; [right; reflexivity|]. split; [discriminate|].
    intros c Hc. vm_compute in Hc. elem_cases Hc; reflexivity.
  - exists (strip_phone "12345678901234567").
    split; [left; reflexivity|]. split; [discriminate|].
    intros c Hc. vm_compute in Hc. elem_cases Hc; reflexivity.
Qed.

Example create_alice :
  fst (addUser alice 2000 seeded) = Normal alice_record /\
  fst (getUserByEmail "ALICE@X.COM" (snd (addUser alice 2000 seeded)))
  = Normal (Some alice_record).
Proof. split; vm_compute; reflexivity. Qed.

Example merge_one_new_one_known :
  fst (importUsers (Text (JArray [carol; john_again])) true seeded) = Normal 1.
Proof. vm_compute. reflexivity. Qed.

(** * Further properties *)

(** ** Identifiers and emails under creation *)

(** X1.  [generateUserId] leaves the storage alone; for an empty
    collection it returns 1; and when every stored identifier is a safe
    integer, below 2^53 in magnitude, it returns a number above the
    identifier of every stored record. *)
Theorem generateUserId_above_all (ls : localStorage) :
  exists n : Z,
    generateUserId ls = (Normal n, ls) /\
    (collection ls = [] -> n = 1) /\
    (safe_ids (collection ls) ->
     (forall u, u ∈ collection ls -> id u < n) /\
     (forall u, u ∈ collection ls -> id u <> n)).
Proof.
  exists (fresh_id (collection ls)). split; [apply generateUserId_run|].
  split; [now intros ->|]. intros Hsafe. split.
  - intros u Hu. now apply fresh_id_above.
  - intros u Hu. pose proof (fresh_id_above _ _ Hsafe Hu). lia.
Qed.

Lemma seeded_safe : safe_ids (collection seeded).
Proof. intros u Hu. elem_cases Hu; reflexivity. Defined.

Lemma generateUserId_above_all_witness :
  exists n : Z,
    generateUserId seeded = (Normal n, seeded) /\
    (forall u, u ∈ collection seeded -> id u < n).
Proof.
  destruct (generateUserId_above_all seeded) as (n & Hrun & _ & Habove).
  exists n. split; [exact Hrun|]. exact (proj1 (Habove seeded_safe)).
Defined.

Lemma addUser_collection (d : UserData.t) (now : timestamp)
    (ls : localStorage) :
  collection (snd (addUser d now ls)) = collection ls \/
  ((forall u, u ∈ collection ls -> ~ same_email (UserData.email d) u) /\
   fst (addUser d now ls) = Normal (new_record (collection ls) d now) /\
   collection (snd (addUser d now ls))
   = collection ls ++ [new_record (collection ls) d now]).
Proof.
  rewrite addUser_run.
  destruct (find _ _) eqn:Hfind; [now left|right].
  split; [exact (proj1 (find_None _ _) Hfind)|]. now split.
Qed.

(** X2.  [addUser] keeps identifiers unique when they are safe integers:
    if no two stored records share an identifier and every stored
    identifier is below 2^53 in magnitude, no two records share an
    identifier after the call, whether it adds a record or throws. *)
Theorem addUser_keeps_ids_unique
    (ls : localStorage) (d : UserData.t) (now : timestamp) :
  safe_ids (collection ls) ->
  NoDup (map id (collection ls)) ->
  NoDup (map id (collection (snd (addUser d now ls)))).
Proof.
  intros Hsafe Hnodup.
  destruct (addUser_collection d now ls) as [-> | (_ & _ & ->)];
    [exact Hnodup|].
  rewrite map_app. apply NoDup_app. split; [exact Hnodup|]. split.
  - intros x Hx Hnew. apply list_elem_of_singleton in Hnew. simpl in Hnew.
    apply list_elem_of_fmap in Hx as (u & -> & Hu).
    pose proof (fresh_id_above _ _ Hsafe Hu). lia.
  - apply NoDup_singleton.
Qed.

Lemma seeded_ids_unique : NoDup (map id (collection seeded)).
Proof.
  change (NoDup [1; 2]). apply NoDup_cons. split.
  - intros H. apply list_elem_of_singleton in H. discriminate H.
  - apply NoDup_singleton.
Defined.

Lemma addUser_keeps_ids_unique_witness :
  NoDup (map id (collection (snd (addUser alice 2000 seeded)))).
Proof.
  apply addUser_keeps_ids_unique; [exact seeded_safe|exact seeded_ids_unique].
Defined.

(** X3.  [addUser] keeps emails unique up to letter case: when no two
    stored records have the same lower-cased email, none do after the
    call. *)
Theorem addUser_keeps_emails_unique
    (ls : localStorage) (d : UserData.t) (now : timestamp) :
  NoDup (lower_emails (collection ls)) ->
  NoDup (lower_emails (collection (snd (addUser d now ls)))).
Proof.
  intros Hnodup.
  destruct (addUser_collection d now ls) as [-> | (Hfresh & _ & ->)];
    [exact Hnodup|].
  unfold lower_emails in *. rewrite map_app. apply NoDup_app.
  split; [exact Hnodup|]. split.
  - intros x Hx Hnew. apply list_elem_of_singleton in Hnew. simpl in Hnew.
    apply list_elem_of_fmap in Hx as (u & -> & Hu).
    apply (Hfresh u Hu). unfold same_email.
    now rewrite Hnew, toLowerCase_idem.
  - apply NoDup_singleton.
Qed.

Lemma seeded_emails_unique : NoDup (lower_emails (collection seeded)).
Proof.
  change (NoDup ["john@example.com"; "jane@example.com"]).
  apply NoDup_cons. split.
  - intros H. apply list_elem_of_singleton in H. discriminate H.
  - apply NoDup_singleton.
Defined.

Lemma addUser_keeps_emails_unique_witness :
  NoDup (lower_emails (collection (snd (addUser alice 2000 seeded)))).
Proof. apply addUser_keeps_emails_unique. exact seeded_emails_unique. Defined.

Lemma getUserById_run `{!Builtins} (userId : Z) (ls : localStorage) :
  getUserById userId ls = (Normal (find (has_id userId) (collection ls)), ls).
Proof. reflexivity. Qed.

(** On a collection of safe identifiers, the identifier of a new record is
    at most 2^53 in magnitude, so it prints as plain digits. *)
Lemma fresh_id_plain (users : list user) :
  safe_ids users -> Z.abs (fresh_id users) < 10 ^ 21.
Proof.
  intros Hsafe. destruct (fresh_id_spec users) as [[_ ->]|(m & Hmax & _)].
  - reflexivity.
  - assert (Hm : safe m).
    { destruct Hmax as [Hm _].
      apply list_elem_of_fmap in Hm as (v & -> & Hv). now apply Hsafe. }
    rewrite (fresh_id_safe_max _ _ Hmax Hm). unfold safe in Hm.
    assert (2 ^ 53 < 10 ^ 21 - 1) by reflexivity. lia.
Qed.

Lemma new_record_first_with_id (users : list user) (u : user) :
  safe_ids users ->
  id u = fresh_id users ->
  first_at (carries (id u)) (users ++ [u]) (length users) u.
Proof.
  intros Hsafe Hid. split; [|split].
  - now rewrite lookup_app_r, Nat.sub_diag by lia.
  - reflexivity.
  - intros j y Hy Hj Hsame. rewrite lookup_app_l in Hy by exact Hj.
    apply list_elem_of_lookup_2 in Hy.
    pose proof (fresh_id_above _ _ Hsafe Hy). unfold carries in Hsame. lia.
Qed.

(** X4.  After a creation that succeeds on a collection of safe
    identifiers, a lookup by the identifier of the new record returns the
    new record, even if older records share identifiers among
    themselves. *)
Theorem getUserById_after_addUser `{!Builtins}
    (ls : localStorage) (d : UserData.t) (now : timestamp) :
  safe_ids (collection ls) ->
  (forall u, u ∈ collection ls ->
     toLowerCase (email u) <> toLowerCase (UserData.email d)) ->
  exists (u : user) (ls' : localStorage),
    addUser d now ls = (Normal u, ls') /\
    getUserById (id u) ls' = (Normal (Some u), ls').
Proof.
  intros Hsafe Hfresh.
  assert (Hnone : find (same_email (UserData.email d)) (collection ls) = None).
  { apply find_None. intros u Hu. now apply Hfresh. }
  set (u := new_record (collection ls) d now).
  exists u, (save (collection ls ++ [u]) ls).
  rewrite addUser_run, Hnone. split; [reflexivity|].
  rewrite getUserById_run, collection_save. f_equal. f_equal.
  apply (first_at_find _ _ (length (collection ls))).
  apply first_at_has_id; [now apply fresh_id_plain|].
  now apply new_record_first_with_id.
Qed.

Lemma alice_is_new (u : user) :
  u ∈ collection seeded ->
  toLowerCase (email u) <> toLowerCase (UserData.email alice).
Proof. intros Hu. elem_cases Hu; vm_compute; discriminate. Defined.

Lemma getUserById_after_addUser_witness :
  exists (u : user) (ls' : localStorage),
    addUser alice 2000 seeded = (Normal u, ls') /\
    getUserById (id u) ls' = (Normal (Some u), ls').
Proof.
  apply getUserById_after_addUser; [exact seeded_safe|exact alice_is_new].
Defined.

(** ** Deleting and updating *)

(** X5.  Deleting an identifier that prints as plain digits, below 1e21
    in magnitude, and that some record carries succeeds and removes every
    record with that identifier, not only the first; the other records
    stay, in their order, and a lookup by the identifier then finds
    nothing. *)
Theorem deleteUser_present `{!Builtins} (ls : localStorage) (userId : Z) :
  Z.abs userId < 10 ^ 21 ->
  (exists v, v ∈ collection ls /\ id v = userId) ->
  exists ls' : localStorage,
    deleteUser userId ls = (Normal true, ls') /\
    (forall u, u ∈ collection ls' <-> u ∈ collection ls /\ id u <> userId) /\
    sublist (collection ls') (collection ls) /\
    (length (collection ls') < length (collection ls))%nat /\
    getUserById userId ls' = (Normal None, ls') /\
    item_currentUser ls' = item_currentUser ls.
Proof.
  intros Hplain (v & Hv & Hid).
  set (kept := filter (fun u => ~ has_id userId u) (collection ls)).
  assert (Hlt : (length kept < length (collection ls))%nat).
  { apply (length_filter_lt _ _ v Hv). intros Hnot. apply Hnot.
    now apply has_id_carries. }
  exists (save kept ls). rewrite deleteUser_run. fold kept.
  replace (length (collection ls) =? length kept)%nat with false
    by (symmetry; apply Nat.eqb_neq; lia).
  split; [reflexivity|]. rewrite collection_save.
  assert (Hmem : forall u, u ∈ kept <-> u ∈ collection ls /\ id u <> userId).
  { intros u. unfold kept. rewrite list_elem_of_filter.
    rewrite (has_id_carries _ _ Hplain). unfold carries. tauto. }
  split; [exact Hmem|]. split; [apply sublist_filter|].
  split; [exact Hlt|]. split; [|reflexivity].
  rewrite getUserById_run, collection_save. f_equal. f_equal.
  apply find_None. intros u Hu%Hmem Hsame.
  apply (has_id_carries _ _ Hplain) in Hsame. now destruct Hu.
Qed.

Lemma deleteUser_present_witness :
  exists ls' : localStorage,
    deleteUser 3 after_merge = (Normal true, ls') /\
    (length (collection ls') < length (collection after_merge))%nat.
Proof.
  destruct (deleteUser_present after_merge 3) as (ls' & Hrun & _ & _ & Hlt & _).
  - reflexivity.
  - exists (with_id dave 3). split; [|reflexivity].
    do 3 right. left.
  - exists ls'. split; [exact Hrun|exact Hlt].
Defined.

(** X6.  A second [deleteUser] with the same identifier always fails with
    NotFound and changes nothing, whether the first one removed records or
    failed itself. *)
Theorem deleteUser_twice `{!Builtins} (ls : localStorage) (userId : Z) :
  deleteUser userId (snd (deleteUser userId ls))
  = (Throw NotFound, snd (deleteUser userId ls)).
Proof.
  apply deleteUser_none. intros u Hu Hid.
  rewrite deleteUser_run in Hu.
  destruct (_ =? _)%nat eqn:Hlen; simpl in Hu.
  - apply Nat.eqb_eq in Hlen.
    pose proof (length_filter_lt (fun u => ~ has_id userId u)
                  (collection ls) u Hu) as Hlt.
    assert (Hnn : ~ ~ has_id userId u) by (intros Hnot; now apply Hnot).
    specialize (Hlt Hnn). lia.
  - rewrite collection_save in Hu. apply list_elem_of_filter in Hu as [Hnot _].
    now apply Hnot.
Qed.

(** X7.  [updateUser] with an identifier that prints as plain digits,
    below 1e21 in magnitude, and that no record carries fails with NotFound
    and leaves the storage as it was. *)
Theorem updateUser_absent `{!Builtins}
    (ls : localStorage) (userId : Z) (p : Update.t) :
  Z.abs userId < 10 ^ 21 ->
  (forall u, u ∈ collection ls -> id u <> userId) ->
  updateUser userId p ls = (Throw NotFound, ls).
Proof.
  intros Hplain Habsent. rewrite updateUser_run.
  replace (list_find (has_id userId) (collection ls)) with
    (@None (nat * user)); [reflexivity|].
  symmetry. apply list_find_None, Forall_forall.
  intros u Hu Hid. apply (Habsent u Hu).
  exact (proj1 (has_id_carries _ _ Hplain) Hid).
Qed.

Lemma updateUser_absent_witness :
  updateUser 7 take_johns_email seeded = (Throw NotFound, seeded).
Proof.
  apply updateUser_absent; [reflexivity|].
  intros u Hu. elem_cases Hu; vm_compute; discriminate.
Defined.

Lemma updateUser_collection `{!Builtins} (userId : Z) (p : Update.t)
    (ls : localStorage) :
  collection (snd (updateUser userId p ls)) = collection ls \/
  exists i u,
    first_at (has_id userId) (collection ls) i u /\
    fst (updateUser userId p ls) = Normal (spread u p) /\
    collection (snd (updateUser userId p ls))
    = <[i := spread u p]> (collection ls).
Proof.
  rewrite updateUser_run.
  destruct (list_find _ _) as [[i u]|] eqn:Hfind; [right|now left].
  exists i, u. split; [exact (proj1 (list_find_first_at _ _ _ _) Hfind)|].
  now split.
Qed.

Lemma map_insert_same {B} (f : user -> B) (users : list user) (i : nat)
    (u u' : user) :
  users !! i = Some u -> f u' = f u ->
  map f (<[i := u']> users) = map f users.
Proof.
  intros Hi Hf.
  change (f <$> <[i := u']> users = f <$> users).
  rewrite list_fmap_insert, Hf. apply list_insert_id.
  now rewrite list_lookup_fmap, Hi.
Qed.

(** X8.  An update that supplies no identifier leaves the identifiers of
    the collection as they were, position by position; one that supplies
    no email leaves the emails as they were.  The number of records never
    changes. *)
Theorem updateUser_keeps_ids_and_emails `{!Builtins}
    (ls : localStorage) (userId : Z) (p : Update.t) :
  let ls' := snd (updateUser userId p ls) in
  length (collection ls') = length (collection ls) /\
  (Update.id p = None ->
   map id (collection ls') = map id (collection ls)) /\
  (Update.email p = None ->
   map email (collection ls') = map email (collection ls)).
Proof.
  destruct (updateUser_collection userId p ls)
    as [Hsame | (i & u & (Hi & _ & _) & _ & Hnew)]; simpl.
  - rewrite Hsame. auto.
  - rewrite Hnew. split; [apply length_insert|].
    split; intros Hnone; apply (map_insert_same _ _ _ u); try exact Hi;
      simpl; now rewrite Hnone.
Qed.

(** X9.  After an update with an identifier that prints as plain digits,
    below 1e21 in magnitude, and that some record carries, and whose
    update object supplies no identifier, a lookup by the identifier
    returns the updated record. *)
Theorem getUserById_after_updateUser `{!Builtins}
    (ls : localStorage) (userId : Z) (p : Update.t) :
  Z.abs userId < 10 ^ 21 ->
  (exists v, v ∈ collection ls /\ id v = userId) ->
  Update.id p = None ->
  exists (u' : user) (ls' : localStorage),
    updateUser userId p ls = (Normal u', ls') /\
    getUserById userId ls' = (Normal (Some u'), ls').
Proof.
  intros Hplain (v & Hin & Hid) Hnone.
  assert (Hv : has_id userId v) by now apply has_id_carries.
  destruct (first_at_exists (has_id userId) (collection ls) v Hin Hv)
    as (i & u & Hfirst).
  exists (spread u p), (save (<[i := spread u p]> (collection ls)) ls).
  rewrite updateUser_run, (proj2 (list_find_first_at _ _ _ _) Hfirst).
  split; [reflexivity|].
  rewrite getUserById_run, collection_save. f_equal. f_equal.
  apply (first_at_find _ _ i). destruct Hfirst as (Hi & Hu & Hbefore).
  split; [|split].
  - apply list_lookup_insert_eq. now apply lookup_lt_Some in Hi.
  - unfold has_id in *. simpl. now rewrite Hnone.
  - intros j y Hy Hj. rewrite list_lookup_insert_ne in Hy by lia.
    now apply (Hbefore j).
Qed.

Lemma getUserById_after_updateUser_witness :
  exists (u' : user) (ls' : localStorage),
    updateUser 2 take_johns_email seeded = (Normal u', ls') /\
    getUserById 2 ls' = (Normal (Some u'), ls').
Proof.
  apply getUserById_after_updateUser; [reflexivity| |reflexivity].
  eexists. split; [right; left|reflexivity].
Defined.

Lemma updateUser_keeps_ids_and_emails_witness :
  map id (collection (snd (updateUser 2 take_johns_email seeded))) = [1; 2].
Proof.
  destruct (updateUser_keeps_ids_and_emails seeded 2 take_johns_email)
    as (_ & Hids & _).
  rewrite Hids; reflexivity.
Defined.

(** ** Creation followed by another call *)

Lemma filter_drops_new_record `{!Builtins} (users : list user) (u : user) :
  safe_ids users ->
  id u = fresh_id users ->
  filter (fun v => ~ has_id (id u) v) (users ++ [u]) = users.
Proof.
  intros Hsafe Hid.
  assert (Hplain : Z.abs (id u) < 10 ^ 21).
  { rewrite Hid. now apply fresh_id_plain. }
  rewrite filter_app, filter_cons_False, filter_nil, app_nil_r.
  - apply filter_all. intros v Hv Hsame%(has_id_carries _ _ Hplain).
    pose proof (fresh_id_above _ _ Hsafe Hv). unfold carries in Hsame. lia.
  - intros Hnot. apply Hnot. now apply has_id_carries.
Qed.

(** X10.  On a collection of safe identifiers, creating a record and then
    deleting it by the identifier it was given restores the collection:
    the deletion removes the new record and no other. *)
Theorem addUser_then_deleteUser `{!Builtins}
    (ls : localStorage) (d : UserData.t) (now : timestamp) :
  safe_ids (collection ls) ->
  (forall u, u ∈ collection ls ->
     toLowerCase (email u) <> toLowerCase (UserData.email d)) ->
  exists (u : user) (ls1 ls2 : localStorage),
    addUser d now ls = (Normal u, ls1) /\
    deleteUser (id u) ls1 = (Normal true, ls2) /\
    collection ls2 = collection ls.
Proof.
  intros Hsafe Hfresh.
  assert (Hnone : find (same_email (UserData.email d)) (collection ls) = None).
  { apply find_None. intros u Hu. now apply Hfresh. }
  set (u := new_record (collection ls) d now).
  exists u, (save (collection ls ++ [u]) ls),
         (save (collection ls) (save (collection ls ++ [u]) ls)).
  rewrite addUser_run, Hnone. split; [reflexivity|].
  split; [|reflexivity].
  rewrite deleteUser_run, collection_save.
  rewrite filter_drops_new_record by (try reflexivity; exact Hsafe).
  replace (length (collection ls ++ [u]) =? length (collection ls))%nat
    with false; [reflexivity|].
  symmetry. apply Nat.eqb_neq. rewrite length_app. simpl. lia.
Qed.

Lemma addUser_then_deleteUser_witness :
  exists (u : user) (ls1 ls2 : localStorage),
    addUser alice 2000 seeded = (Normal u, ls1) /\
    deleteUser (id u) ls1 = (Normal true, ls2) /\
    collection ls2 = collection seeded.
Proof.
  apply addUser_then_deleteUser; [exact seeded_safe|exact alice_is_new].
Defined.

Lemma new_record_first_with_email (users : list user) (d : UserData.t)
    (now : timestamp) (addr : string) :
  (forall u, u ∈ users ->
     toLowerCase (email u) <> toLowerCase (UserData.email d)) ->
  toLowerCase addr = toLowerCase (UserData.email d) ->
  first_at (same_email addr) (users ++ [new_record users d now])
           (length users) (new_record users d now).
Proof.
  intros Hfresh Haddr. split; [|split].
  - now rewrite lookup_app_r, Nat.sub_diag by lia.
  - now apply same_email_new_record.
  - intros j y Hy Hj Hsame. rewrite lookup_app_l in Hy by exact Hj.
    apply (Hfresh y); [now apply list_elem_of_lookup_2 in Hy|].
    unfold same_email in Hsame. congruence.
Qed.

(** X11.  Registration, then login, on a collection of safe identifiers.
    After a creation that succeeds, a login with the email in any letter
    case and the password of the creation input succeeds, returns the
    created record and stamps that record, the last of the collection,
    with the clock reading; this holds even if older records share
    identifiers among themselves. *)
Theorem addUser_then_authenticateUser `{!Builtins}
    (ls : localStorage) (d : UserData.t) (now later : timestamp)
    (addr : string) :
  safe_ids (collection ls) ->
  (forall u, u ∈ collection ls ->
     toLowerCase (email u) <> toLowerCase (UserData.email d)) ->
  toLowerCase addr = toLowerCase (UserData.email d) ->
  exists (u : user) (ls1 ls2 : localStorage),
    addUser d now ls = (Normal u, ls1) /\
    authenticateUser addr (UserData.password d) later ls1 = (Normal u, ls2) /\
    collection ls2 = collection ls ++ [logged_in u later] /\
    lastLogin (logged_in u later) = Some later.
Proof.
  intros Hsafe Hfresh Haddr.
  assert (Hnone : find (same_email (UserData.email d)) (collection ls) = None).
  { apply find_None. intros u Hu. now apply Hfresh. }
  set (u := new_record (collection ls) d now).
  exists u, (save (collection ls ++ [u]) ls).
  eexists. rewrite addUser_run, Hnone. split; [reflexivity|].
  split; [|split; [|reflexivity]].
  - apply (authenticateUser_success _ _ _ _ (length (collection ls)));
      rewrite ?collection_save.
    + now apply new_record_first_with_email.
    + reflexivity.
    + reflexivity.
    + now apply fresh_id_plain.
    + now apply new_record_first_with_id.
  - rewrite !collection_save, insert_app_r_alt by lia.
    now rewrite Nat.sub_diag.
Qed.

Lemma addUser_then_authenticateUser_witness :
  exists (u : user) (ls1 ls2 : localStorage),
    addUser alice 2000 seeded = (Normal u, ls1) /\
    authenticateUser "ALICE@X.COM" "Secret123!" 3000 ls1 = (Normal u, ls2) /\
    collection ls2 = collection seeded ++ [logged_in u 3000] /\
    lastLogin (logged_in u 3000) = Some 3000.
Proof.
  apply (addUser_then_authenticateUser seeded alice 2000 3000 "ALICE@X.COM");
    [exact seeded_safe|exact alice_is_new|reflexivity].
Defined.

(** ** What a login and the collection methods leave alone *)

(** X12.  [authenticateUser] changes nothing but last logins: whatever the
    outcome, the records keep their number, their order and every field
    other than the last login, and the session item stays as it was. *)
Theorem authenticateUser_changes_only_lastLogin `{!Builtins}
    (ls : localStorage) (addr pwd : string) (now : timestamp) :
  let ls' := snd (authenticateUser addr pwd now ls) in
  map forget_login (collection ls') = map forget_login (collection ls) /\
  length (collection ls') = length (collection ls) /\
  item_currentUser ls' = item_currentUser ls.
Proof.
  rewrite authenticateUser_run.
  destruct (find _ _) as [u|]; [|now simpl].
  destruct (negb (isActive u)); [now simpl|].
  destruct (negb _); [now simpl|].
  destruct (list_find _ _) as [[i v]|] eqn:Hfind; [|now simpl].
  apply list_find_first_at in Hfind as (Hi & _ & _).
  simpl. split; [|split; [apply length_insert|reflexivity]].
  now apply (map_insert_same _ _ _ v).
Qed.

Lemma importUsers_session (jsonData : text) (mergeMode : bool)
    (ls : localStorage) :
  item_currentUser (snd (importUsers jsonData mergeMode ls))
  = item_currentUser ls.
Proof.
  destruct (user_list jsonData) as [l|] eqn:Hlist.
  - destruct mergeMode.
    + now rewrite (importUsers_merge_run _ l).
    + now rewrite (importUsers_replace_run _ l).
  - destruct (importUsers_refused jsonData mergeMode ls Hlist) as [msg ->].
    reflexivity.
Qed.

Lemma addUser_session (d : UserData.t) (now : timestamp) (ls : localStorage) :
  item_currentUser (snd (addUser d now ls)) = item_currentUser ls.
Proof. rewrite addUser_run. now destruct (find _ _). Qed.

Lemma updateUser_session `{!Builtins} (userId : Z) (p : Update.t)
    (ls : localStorage) :
  item_currentUser (snd (updateUser userId p ls)) = item_currentUser ls.
Proof. rewrite updateUser_run. now destruct (list_find _ _) as [[i u]|]. Qed.

Lemma deleteUser_session `{!Builtins} (userId : Z) (ls : localStorage) :
  item_currentUser (snd (deleteUser userId ls)) = item_currentUser ls.
Proof. rewrite deleteUser_run. now destruct (_ =? _)%nat. Qed.

(** X13.  The session item is independent of the collection.  No method
    that works on the collection touches it, so the session snapshot
    survives any of them, the deletion of its own account included; and
    [setCurrentUser] and [logout] leave the collection alone. *)
Theorem session_independent_of_collection `{!Builtins}
    (ls : localStorage) (u : user) :
  (forall d now, item_currentUser (snd (addUser d now ls))
                 = item_currentUser ls) /\
  (forall userId p, item_currentUser (snd (updateUser userId p ls))
                    = item_currentUser ls) /\
  (forall userId, item_currentUser (snd (deleteUser userId ls))
                  = item_currentUser ls) /\
  (forall addr pwd now,
     item_currentUser (snd (authenticateUser addr pwd now ls))
     = item_currentUser ls) /\
  (forall jsonData mergeMode,
     item_currentUser (snd (importUsers jsonData mergeMode ls))
     = item_currentUser ls) /\
  (forall userId,
     fst (getCurrentUser (snd (deleteUser userId (snd (setCurrentUser u ls)))))
     = Normal (Some u)) /\
  collection (snd (setCurrentUser u ls)) = collection ls /\
  collection (snd (logout ls)) = collection ls /\
  fst (getCurrentUser (snd (logout ls))) = Normal None.
Proof.
  split; [intros; apply addUser_session|].
  split; [intros; apply updateUser_session|].
  split; [intros; apply deleteUser_session|].
  split.
  { intros addr pwd now. rewrite authenticateUser_run.
    destruct (find _ _) as [v|]; [|reflexivity].
    destruct (negb (isActive v)); [reflexivity|].
    destruct (negb _); [reflexivity|].
    now destruct (list_find _ _) as [[i w]|]. }
  split; [intros; apply importUsers_session|].
  split; [|now repeat split].
  intros userId. unfold getCurrentUser. simpl.
  now rewrite deleteUser_session.
Qed.

(** ** Importing *)

(** X14.  A snapshot whose user list is not an array is refused in either
    mode and the storage is left as it was.  The error message is
    "Failed to import users: " followed by "Invalid data format" when the
    text parses to a value other than [null], and by the message of the
    parser when the text does not parse. *)
Theorem importUsers_invalid
    (jsonData : text) (mergeMode : bool) (ls : localStorage) :
  user_list jsonData = None ->
  exists msg : string,
    importUsers jsonData mergeMode ls
    = (Throw (Error ("Failed to import users: " ++ msg)), ls) /\
    (forall v, jsonData = Text v -> v <> JNull ->
       msg = "Invalid data format") /\
    (forall m, jsonData = Malformed m -> msg = m).
Proof.
  intros Hlist.
  destruct jsonData as [m|[|b|l|[[|b|l|up mp]|] meta]];
    try discriminate Hlist; try destruct b;
    eexists; (split; [reflexivity|]);
    (split; [intros v [= <-] Hv; try reflexivity; now destruct Hv
            |intros m' [=]; try reflexivity]).
  now subst.
Qed.

Lemma importUsers_invalid_witness :
  importUsers (Text (JObject None None)) true seeded
  = (Throw (Error "Failed to import users: Invalid data format"), seeded).
Proof.
  destruct (importUsers_invalid (Text (JObject None None)) true seeded
              eq_refl) as (msg & Hrun & Hmsg & _).
  rewrite Hrun, (Hmsg _ eq_refl); [reflexivity|discriminate].
Defined.

Lemma appended_known (stored importedUsers : list user) :
  (forall r, r ∈ importedUsers -> ~ unknown_email stored r) ->
  appended stored importedUsers = [].
Proof.
  intros Hknown. unfold appended.
  induction importedUsers as [|r rest IH]; [reflexivity|].
  rewrite filter_cons_False by (apply Hknown; left).
  apply IH. intros r' Hr'. apply Hknown. now right.
Qed.

Lemma known_after_merge (stored importedUsers : list user) (r : user) :
  r ∈ importedUsers ->
  ~ unknown_email (stored ++ appended stored importedUsers) r.
Proof.
  intros Hr Hu. pose proof (proj1 (unknown_email_forall _ _) Hu) as Hunknown.
  destruct (decide (unknown_email stored r)) as [Hnew|Hold].
  - apply (Hunknown (with_id r (fresh_id stored))); [|reflexivity].
    apply elem_of_app. right. unfold appended.
    apply (list_elem_of_fmap_2 (fun r => with_id r (fresh_id stored))).
    apply list_elem_of_filter. now split.
  - apply Hold. apply (proj2 (unknown_email_forall _ _)). intros v Hv.
    apply Hunknown. apply elem_of_app. now left.
Qed.

(** X15.  Merging the same snapshot a second time adds nothing: the
    second import returns 0 and leaves the collection as the first one
    left it. *)
Theorem importUsers_merge_twice
    (ls : localStorage) (jsonData : text) (importedUsers : list user) :
  user_list jsonData = Some importedUsers ->
  exists (n : Z) (ls1 ls2 : localStorage),
    importUsers jsonData true ls = (Normal n, ls1) /\
    importUsers jsonData true ls1 = (Normal 0, ls2) /\
    collection ls2 = collection ls1.
Proof.
  intros Hlist.
  set (ls1 := save (collection ls ++ appended (collection ls) importedUsers)
                   ls).
  exists (Z.of_nat (length (appended (collection ls) importedUsers))),
         ls1, (save (collection ls1) ls1).
  split; [now apply importUsers_merge_run|].
  rewrite (importUsers_merge_run _ importedUsers) by exact Hlist.
  unfold ls1 at 1 2 3. rewrite collection_save.
  rewrite appended_known
    by (intros r Hr; now apply known_after_merge).
  rewrite app_nil_r. split; reflexivity.
Qed.

Lemma importUsers_merge_twice_witness :
  exists (n : Z) (ls1 ls2 : localStorage),
    importUsers newcomers true seeded = (Normal n, ls1) /\
    importUsers newcomers true ls1 = (Normal 0, ls2) /\
    collection ls2 = collection ls1.
Proof. apply (importUsers_merge_twice seeded newcomers [carol; dave] eq_refl). Defined.

(** X16.  A merge keeps the stored records where they are and as they
    are, appends only snapshot records whose email was not stored, each
    unchanged but for its identifier, and returns the number of records it
    appended, which is at most the size of the snapshot; when every email
    of the snapshot is stored already, it returns 0 and the collection
    stays as it was. *)
Theorem importUsers_merge_extends
    (ls : localStorage) (jsonData : text) (importedUsers : list user) :
  user_list jsonData = Some importedUsers ->
  exists (n : Z) (ls' : localStorage) (added : list user),
    importUsers jsonData true ls = (Normal n, ls') /\
    collection ls' = collection ls ++ added /\
    n = Z.of_nat (length added) /\
    0 <= n <= Z.of_nat (length importedUsers) /\
    (forall a, a ∈ added ->
       exists r, r ∈ importedUsers /\
         a = with_id r (id a) /\
         forall v, v ∈ collection ls ->
           toLowerCase (email v) <> toLowerCase (email r)) /\
    ((forall r, r ∈ importedUsers ->
        exists v, v ∈ collection ls /\
          toLowerCase (email v) = toLowerCase (email r)) ->
     n = 0 /\ collection ls' = collection ls).
Proof.
  intros Hlist.
  exists (Z.of_nat (length (appended (collection ls) importedUsers))),
         (save (collection ls ++ appended (collection ls) importedUsers) ls),
         (appended (collection ls) importedUsers).
  split; [now apply importUsers_merge_run|]. rewrite collection_save.
  split; [reflexivity|]. split; [reflexivity|]. split; [|split].
  - split; [lia|]. unfold appended. rewrite length_map.
    pose proof (length_filter (unknown_email (collection ls)) importedUsers).
    lia.
  - intros a Ha. unfold appended in Ha.
    apply list_elem_of_fmap in Ha as (r & -> & Hr).
    apply list_elem_of_filter in Hr as [Hnew Hr].
    exists r. split; [exact Hr|]. split; [reflexivity|].
    exact (proj1 (unknown_email_forall _ _) Hnew).
  - intros Hknown. rewrite appended_known; [now rewrite app_nil_r|].
    intros r Hr Hnew. destruct (Hknown r Hr) as (v & Hv & Hsame).
    now apply (proj1 (unknown_email_forall _ _) Hnew v Hv).
Qed.

Lemma importUsers_merge_extends_witness :
  exists (n : Z) (ls' : localStorage) (added : list user),
    importUsers (Text (JArray [carol; john_again])) true seeded
      = (Normal n, ls') /\
    collection ls' = collection seeded ++ added /\
    0 <= n <= 2.
Proof.
  destruct (importUsers_merge_extends seeded
              (Text (JArray [carol; john_again])) [carol; john_again] eq_refl)
    as (n & ls' & added & Hrun & Hcoll & _ & Hn & _).
  exists n, ls', added. split; [exact Hrun|]. split; [exact Hcoll|exact Hn].
Defined.

(** X17.  Replace-mode import, then export: the exported snapshot holds
    exactly the imported list, and its metadata gives the size of that
    list; the import itself returns that size and discards whatever was
    stored. *)
Theorem import_then_export
    (ls : localStorage) (jsonData : text) (importedUsers : list user)
    (now : timestamp) :
  user_list jsonData = Some importedUsers ->
  exists (ls' : localStorage) (meta : metadata),
    importUsers jsonData false ls
      = (Normal (Z.of_nat (length importedUsers)), ls') /\
    collection ls' = importedUsers /\
    exportUsers now ls'
      = (Normal (Text (JObject (Some (JArray importedUsers)) (Some meta))),
         ls') /\
    totalUsers meta = Z.of_nat (length importedUsers) /\
    exportDate meta = now /\
    user_list (Text (JObject (Some (JArray importedUsers)) (Some meta)))
      = Some importedUsers.
Proof.
  intros Hlist. exists (save importedUsers ls). eexists.
  split; [now apply importUsers_replace_run|].
  split; [reflexivity|]. rewrite exportUsers_run, collection_save.
  repeat split; reflexivity.
Qed.

Lemma import_then_export_witness :
  exists (ls' : localStorage) (meta : metadata),
    importUsers newcomers false seeded = (Normal 2, ls') /\
    collection ls' = [carol; dave] /\
    totalUsers meta = 2.
Proof.
  destruct (import_then_export seeded newcomers [carol; dave] 7000 eq_refl)
    as (ls' & meta & Hrun & Hcoll & _ & Htotal & _).
  exists ls', meta. split; [exact Hrun|]. split; [exact Hcoll|exact Htotal].
Defined.

(** ** Initialising *)

(** X18.  [initializeStorage] installs the two seed records, with the
    identifiers 1 and 2, when there is no [users] item, and leaves an
    existing item alone, an empty collection included; afterwards the item
    exists, and running it again changes nothing. *)
Theorem initializeStorage_once (ls : localStorage) (t1 t2 t3 t4 : timestamp) :
  let ls' := snd (initializeStorage t1 t2 ls) in
  item_users ls' <> None /\
  (item_users ls = None ->
   collection ls' = defaultUsers t1 t2 /\ map id (collection ls') = [1; 2]) /\
  (item_users ls <> None -> ls' = ls) /\
  item_currentUser ls' = item_currentUser ls /\
  initializeStorage t3 t4 ls' = (Normal tt, ls').
Proof.
  unfold initializeStorage. destruct ls as [[us|] cur]; simpl.
  - repeat split; try discriminate; congruence.
  - repeat split; try discriminate; congruence.
Qed.

(** ** Searching *)

Lemma starts_with_spec (t s : string) :
  starts_with t s = true <-> exists post : string, s = (t ++ post)%string.
Proof.
  revert s. induction t as [|a t IH]; intros s; simpl.
  - split; [intros _; now exists s|reflexivity].
  - destruct s as [|b s].
    + split; [discriminate|]. intros [post H]. discriminate H.
    + rewrite andb_true_iff, Ascii.eqb_eq, IH. split.
      * intros [-> [post ->]]. now exists post.
      * intros [post [= -> ->]]. split; [reflexivity|now exists post].
Qed.

Lemma includes_spec (s t : string) : includes s t = true <-> occurs_in t s.
Proof.
  unfold occurs_in. induction s as [|c s IH]; simpl.
  - rewrite orb_false_r, starts_with_spec. split.
    + intros [post H]. now exists EmptyString, post.
    + intros (pre & post & H). destruct pre; [now exists post|discriminate H].
  - rewrite orb_true_iff, starts_with_spec, IH. split.
    + intros [[post H]|(pre & post & H)].
      * now exists EmptyString, post.
      * exists (String c pre), post. simpl. now rewrite H.
    + intros (pre & post & H). destruct pre as [|c' pre]; simpl in H.
      * left. now exists post.
      * right. injection H as -> H. now exists pre, post.
Qed.

Lemma includes_self (s : string) : includes s s = true.
Proof.
  apply includes_spec. exists EmptyString, EmptyString.
  change (s = (s ++ EmptyString)%string).
  induction s as [|c s IH]; [reflexivity|].
  change (String c s = String c (s ++ EmptyString)%string).
  now rewrite <- IH.
Qed.

Lemma includes_empty (s : string) : includes s EmptyString = true.
Proof. destruct s; reflexivity. Qed.

Lemma searchUsers_run (query : string) (ls : localStorage) :
  searchUsers query ls =
  (Normal (List.filter (matches_query (toLowerCase query)) (collection ls)),
   ls).
Proof. reflexivity. Qed.

Lemma List_filter_sublist {A} (f : A -> bool) (l : list A) :
  sublist (List.filter f l) l.
Proof.
  induction l as [|x l IH]; simpl; [constructor|].
  destruct (f x); now constructor.
Qed.

(** What the search compares: the lower-cased query occurs in the
    lower-cased first name, last name or email. *)
Lemma matches_query_spec (query : string) (u : user) :
  matches_query (toLowerCase query) u = true <->
  occurs_in (toLowerCase query) (toLowerCase (firstName u)) \/
  occurs_in (toLowerCase query) (toLowerCase (lastName u)) \/
  occurs_in (toLowerCase query) (toLowerCase (email u)).
Proof.
  unfold matches_query. rewrite !orb_true_iff, !includes_spec. tauto.
Qed.

(** X19.  [searchUsers] returns, in the order of the collection, exactly
    the records in whose first name, last name or email the query occurs,
    letter case apart; it changes nothing in the storage. *)
Theorem searchUsers_finds_exactly (ls : localStorage) (query : string) :
  exists found : list user,
    searchUsers query ls = (Normal found, ls) /\
    sublist found (collection ls) /\
    forall u, u ∈ found <->
      u ∈ collection ls /\
      (occurs_in (toLowerCase query) (toLowerCase (firstName u)) \/
       occurs_in (toLowerCase query) (toLowerCase (lastName u)) \/
       occurs_in (toLowerCase query) (toLowerCase (email u))).
Proof.
  eexists. split; [apply searchUsers_run|].
  split; [apply List_filter_sublist|].
  intros u. rewrite <- matches_query_spec, !list_elem_of_In.
  apply filter_In.
Qed.

Lemma List_filter_true {A} (f : A -> bool) (l : list A) :
  (forall x, f x = true) -> List.filter f l = l.
Proof.
  intros Hf. induction l as [|x l IH]; simpl; [reflexivity|].
  now rewrite Hf, IH.
Qed.

(** X20.  The empty query matches every record: [searchUsers] then
    returns the whole collection. *)
Theorem searchUsers_empty_query (ls : localStorage) :
  searchUsers EmptyString ls = (Normal (collection ls), ls).
Proof.
  rewrite searchUsers_run. f_equal. f_equal.
  apply List_filter_true. intros u. unfold matches_query. simpl.
  now rewrite includes_empty.
Qed.

(** X21.  Searching for the email of a stored record, in any letter
    case, finds that record; so does searching for its first or its last
    name. *)
Theorem searchUsers_by_own_field
    (ls : localStorage) (u : user) (query : string) :
  u ∈ collection ls ->
  toLowerCase query = toLowerCase (email u) \/
  toLowerCase query = toLowerCase (firstName u) \/
  toLowerCase query = toLowerCase (lastName u) ->
  exists found : list user,
    searchUsers query ls = (Normal found, ls) /\ u ∈ found.
Proof.
  intros Hu Hq. eexists. split; [apply searchUsers_run|].
  apply list_elem_of_In, filter_In. split; [now apply list_elem_of_In|].
  unfold matches_query. destruct Hq as [-> | [-> | ->]];
    rewrite includes_self; now rewrite ?orb_true_r.
Qed.

Lemma searchUsers_by_own_field_witness :
  exists found : list user,
    searchUsers "JANE@example.COM" seeded = (Normal found, seeded) /\
    {| id := 2; firstName := "Jane"; lastName := "Smith";
       email := "jane@example.com"; phone := "+0987654321";
       password := "SecurePass456@"; createdAt := 1001;
       lastLogin := None; isActive := true |} ∈ found.
Proof.
  apply searchUsers_by_own_field; [right; left|left; reflexivity].
Defined.

(** ** Counting *)

Lemma getUserStats_run (clock : nat -> timestamp) (ls : localStorage) :
  getUserStats clock ls =
  (Normal
     {| Stats.totalUsers := Z.of_nat (length (collection ls));
        Stats.activeUsers :=
          Z.of_nat (length (List.filter isActive (collection ls)));
        Stats.usersWithLogin :=
          Z.of_nat (length (List.filter has_login (collection ls)));
        Stats.inactiveUsers :=
          Z.of_nat (length (collection ls))
          - Z.of_nat (length (List.filter isActive (collection ls)));
        Stats.recentRegistrations :=
          Z.of_nat (length (recent_from clock 0 (collection ls))) |},
   ls).
Proof. reflexivity. Qed.

Lemma recent_from_length (clock : nat -> timestamp) (i : nat)
    (users : list user) :
  (length (recent_from clock i users) <= length users)%nat.
Proof.
  revert i. induction users as [|u rest IH]; intros i; simpl; [lia|].
  specialize (IH (S i)). destruct (Z.ltb _ _); simpl; lia.
Qed.

Lemma recent_from_app (clock : nat -> timestamp) (i : nat)
    (l1 l2 : list user) :
  recent_from clock i (l1 ++ l2)
  = recent_from clock i l1 ++ recent_from clock (i + length l1) l2.
Proof.
  revert i. induction l1 as [|u rest IH]; intros i; simpl.
  - now rewrite Nat.add_0_r.
  - rewrite IH. replace (S i + length rest)%nat with (i + S (length rest))%nat
      by lia.
    now destruct (Z.ltb _ _).
Qed.

(** X22.  The statistics are consistent: the total is the size of the
    collection, the active and the inactive records add up to it, every
    count lies between 0 and the total, and on an empty collection all
    five are 0.  The storage is not changed. *)
Theorem getUserStats_consistent
    (ls : localStorage) (clock : nat -> timestamp) :
  exists st : Stats.t,
    getUserStats clock ls = (Normal st, ls) /\
    Stats.totalUsers st = Z.of_nat (length (collection ls)) /\
    Stats.activeUsers st + Stats.inactiveUsers st = Stats.totalUsers st /\
    0 <= Stats.activeUsers st <= Stats.totalUsers st /\
    0 <= Stats.inactiveUsers st <= Stats.totalUsers st /\
    0 <= Stats.usersWithLogin st <= Stats.totalUsers st /\
    0 <= Stats.recentRegistrations st <= Stats.totalUsers st /\
    (collection ls = [] ->
     st = {| Stats.totalUsers := 0; Stats.activeUsers := 0;
             Stats.usersWithLogin := 0; Stats.inactiveUsers := 0;
             Stats.recentRegistrations := 0 |}).
Proof.
  eexists. split; [apply getUserStats_run|]. simpl.
  pose proof (filter_length_le isActive (collection ls)).
  pose proof (filter_length_le has_login (collection ls)).
  pose proof (recent_from_length clock 0 (collection ls)).
  repeat split; try lia.
  intros ->. reflexivity.
Qed.

(** X23.  A creation that succeeds raises the total and the number of
    active records by one and leaves the numbers of inactive records and
    of records with a login as they were, whatever the clock reads at the
    two counts.  Compared with a count of the old collection under the same
    clock readings, the number of recent registrations rises by one when
    the clock, at the time the count reaches the new record, reads less
    than a week after its creation, and is the same otherwise. *)
Theorem getUserStats_after_addUser
    (ls : localStorage) (d : UserData.t) (now : timestamp)
    (clock_before clock_after : nat -> timestamp) :
  (forall u, u ∈ collection ls ->
     toLowerCase (email u) <> toLowerCase (UserData.email d)) ->
  exists (u : user) (ls' : localStorage) (before after same_clock : Stats.t),
    addUser d now ls = (Normal u, ls') /\
    getUserStats clock_before ls = (Normal before, ls) /\
    getUserStats clock_after ls' = (Normal after, ls') /\
    getUserStats clock_after ls = (Normal same_clock, ls) /\
    Stats.totalUsers after = Stats.totalUsers before + 1 /\
    Stats.activeUsers after = Stats.activeUsers before + 1 /\
    Stats.inactiveUsers after = Stats.inactiveUsers before /\
    Stats.usersWithLogin after = Stats.usersWithLogin before /\
    Stats.recentRegistrations after =
      Stats.recentRegistrations same_clock +
      (if (clock_after (length (collection ls)) - one_week <? now)%Z
       then 1 else 0).
Proof.
  intros Hfresh.
  assert (Hnone : find (same_email (UserData.email d)) (collection ls) = None).
  { apply find_None. intros u Hu. now apply Hfresh. }
  set (u := new_record (collection ls) d now).
  exists u, (save (collection ls ++ [u]) ls). do 3 eexists.
  rewrite addUser_run, Hnone. split; [reflexivity|].
  split; [apply getUserStats_run|]. split; [apply getUserStats_run|].
  split; [apply getUserStats_run|].
  rewrite collection_save. simpl.
  rewrite !List.filter_app, recent_from_app, !length_app. simpl.
  destruct (Z.ltb _ _); simpl; repeat split; lia.
Qed.

Lemma getUserStats_after_addUser_witness :
  exists (u : user) (ls' : localStorage) (before after : Stats.t),
    addUser alice 2000 seeded = (Normal u, ls') /\
    getUserStats (still 2500) ls' = (Normal after, ls') /\
    getUserStats (still 2400) seeded = (Normal before, seeded) /\
    Stats.totalUsers after = Stats.totalUsers before + 1.
Proof.
  destruct (getUserStats_after_addUser seeded alice 2000 (still 2400)
              (still 2500) alice_is_new)
    as (u & ls' & before & after & same & Hadd & Hb & Ha & _ & Htot & _).
  exists u, ls', before, after. repeat split; assumption.
Defined.

(** ** A deleted account *)

(** X24.  After the deletion of a record by its identifier, when that
    identifier prints as plain digits, below 1e21 in magnitude, a login
    with the email of that record fails with NotFound, provided every
    stored record with that email carried the identifier. *)
Theorem authenticateUser_after_deleteUser `{!Builtins}
    (ls : localStorage) (u : user) (pwd : string) (now : timestamp) :
  u ∈ collection ls ->
  Z.abs (id u) < 10 ^ 21 ->
  (forall v, v ∈ collection ls ->
     toLowerCase (email v) = toLowerCase (email u) -> id v = id u) ->
  exists ls' : localStorage,
    deleteUser (id u) ls = (Normal true, ls') /\
    authenticateUser (email u) pwd now ls' = (Throw NotFound, ls').
Proof.
  intros Hu Hplain Hids.
  set (kept := filter (fun v => ~ has_id (id u) v) (collection ls)).
  assert (Hlt : (length kept < length (collection ls))%nat).
  { apply (length_filter_lt _ _ u Hu). intros Hnot. apply Hnot.
    now apply has_id_carries. }
  exists (save kept ls). rewrite deleteUser_run. fold kept.
  replace (length (collection ls) =? length kept)%nat with false
    by (symmetry; apply Nat.eqb_neq; lia).
  split; [reflexivity|].
  rewrite authenticateUser_run, collection_save.
  replace (find (same_email (email u)) kept) with (@None user);
    [reflexivity|].
  symmetry. apply find_None. intros v Hv Hsame.
  apply list_elem_of_filter in Hv as [Hnot Hv].
  apply Hnot. apply has_id_carries; [exact Hplain|]. now apply Hids.
Qed.

Lemma authenticateUser_after_deleteUser_witness :
  exists ls' : localStorage,
    deleteUser 2 seeded = (Normal true, ls') /\
    authenticateUser "jane@example.com" jane_password 5000 ls'
    = (Throw NotFound, ls').
Proof.
  apply (authenticateUser_after_deleteUser seeded jane_record).
  - right; left.
  - reflexivity.
  - intros v Hv. elem_cases Hv; [vm_compute; discriminate|reflexivity].
Defined.

(** ** The phone of a form *)

Lemma falsy_or_bad_phone (p : string) :
  falsy_or bad_phone (Some p) = bad_phone p.
Proof.
  simpl. destruct (String.length p =? 0)%nat eqn:Hlen; [|reflexivity].
  apply length_zero_empty in Hlen as ->. reflexivity.
Qed.

Lemma replace_all_strip_phone (p : string) :
  replace_all phone_separator p = string_of_list_ascii (strip_phone p).
Proof. reflexivity. Qed.

(** X25.  The validator looks at a phone only through what is left once
    white space, dashes and parentheses are deleted: two forms that differ
    in their phones alone get the same verdict and the same messages when
    the two phones are equal after that deletion. *)
Theorem validateUserData_phone_layout (d : FormData.t) (p p' : string) :
  strip_phone p = strip_phone p' ->
  validateUserData (with_phone d p) = validateUserData (with_phone d p').
Proof.
  intros Hstrip. unfold validateUserData, with_phone. simpl FormData.phone.
  cbv zeta. rewrite !falsy_or_bad_phone. unfold bad_phone.
  now rewrite !replace_all_strip_phone, Hstrip.
Qed.

Lemma validateUserData_phone_layout_witness :
  validateUserData (with_phone (form_with_phone "") "+1 (555) 666-7777")
  = validateUserData (with_phone (form_with_phone "") "+15556667777").
Proof. apply validateUserData_phone_layout. reflexivity. Defined.
